(** * LightController: the 24-hour light schedule of LightController.ino

    A shallow embedding of the sketch: the period table [lightMatrix], the
    conversion [GetSeconds], the resolver [UpdateLights] and the main
    [loop], together with the properties of the schedule specification that
    concern them and further properties of the code.

    Machine model.  The sketch is Arduino C++.  [long] is 32 bits on every
    Arduino board.  [int] is 16 bits on the AVR boards (the Uno the sketch
    names) and 32 bits on the ARM ones; the sketch itself casts [hours] to
    [long] before multiplying by 3600, because 86400 does not fit an AVR
    [int].  The width of [int] is therefore a parameter, [int_bits], of the
    whole development.  [float] is IEEE-754 binary32 on all of them; its
    operations are the ones of the Standard Library's [SpecFloat] at
    precision 24 and maximal exponent 128, rounding to nearest, ties to
    even. *)

From Stdlib Require Import ZArith Bool Lia Reals Lra.
From Stdlib Require Import Floats.SpecFloat.
From stdpp Require Import base list.

Local Open Scope Z_scope.

(** ** Machine integers *)

Module MachineInt.

(** Two's-complement reduction of [z] to [bits] bits: what a conversion to a
    narrower signed type, or an operation that overflows, leaves. *)
Definition wrap (bits z : Z) : Z :=
  (z + 2 ^ (bits - 1)) mod 2 ^ bits - 2 ^ (bits - 1).

Definition in_range (bits z : Z) : Prop :=
  - 2 ^ (bits - 1) <= z < 2 ^ (bits - 1).

Definition long_bits : Z := 32.

(** The width of [int] on the AVR boards. *)
Definition avr_int_bits : Z := 16.

(** The width of [int] on the ARM boards. *)
Definition arm_int_bits : Z := 32.

End MachineInt.

Import MachineInt.

(** ** Single-precision floats *)

Module Float32.

Definition prec : Z := 24.
Definition emax : Z := 128.

Definition float := spec_float.

(** [(float)z] for an integer [z]. *)
Definition of_Z (z : Z) : float := binary_normalize prec emax z 0 false.

Definition div (x y : float) : float := SFdiv prec emax x y.
Definition mul (x y : float) : float := SFmul prec emax x y.

(** The integer part of a finite float, fraction discarded (toward zero). *)
Definition trunc (x : float) : Z :=
  match x with
  | S754_finite s m e =>
      let a := match e with
               | Z0 => Zpos m
               | Zpos p => Zpos m * 2 ^ Zpos p
               | Zneg p => Zpos m / 2 ^ Zpos p
               end in
      if s then - a else a
  | _ => 0
  end.

(** [(int)x].  C leaves the conversion of a value that [int] cannot hold
    undefined; the truncated value is reduced to [bits] bits here, and an
    infinity or a NaN gives 0.  Neither case is reached where a gap is
    shorter than [2 ^ (bits - 1)] seconds. *)
Definition to_int (bits : Z) (x : float) : Z := wrap bits (trunc x).

End Float32.

Import Float32.

(** ** Runs of the sketch

    A run of a piece of the sketch is the list of the table rows it read, as
    (channel, period) pairs in the order of the reads, and either the value it
    produced or the fault of having indexed [lightMatrix] outside its bounds,
    where the run stops. *)

Inductive outcome (A : Type) : Type :=
  | Done (a : A)
  | OutOfBounds.
Arguments Done {A} a.
Arguments OutOfBounds {A}.

Definition Run (A : Type) : Type := (list (nat * nat) * outcome A)%type.

Definition reads {A} (r : Run A) : list (nat * nat) := fst r.
Definition result {A} (r : Run A) : outcome A := snd r.

Definition ret {A} (a : A) : Run A := ([], Done a).

Definition bind {A B} (m : Run A) (k : A -> Run B) : Run B :=
  match m with
  | (log, Done a) => (log ++ reads (k a), result (k a))
  | (log, OutOfBounds) => (log, OutOfBounds)
  end.

Notation "x <- m ;; k" := (bind m (fun x => k))
  (at level 100, m at next level, right associativity).

(** ** The period table *)

(** One row of [lightMatrix]: {HourStart, MinuteStart, HourEnd, MinuteEnd,
    Intensity}, the fields named by the column macros of the sketch. *)
Record Row : Type := mkRow {
  START_H : Z;
  START_M : Z;
  END_H : Z;
  END_M : Z;
  INTENSITY : Z
}.

(** [lightMatrix[channel][period]]: the row, or the fault when an index is
    past the end of the array. *)
Definition read (lightMatrix : list (list Row)) (channel period : nat) : Run Row :=
  ([(channel, period)],
   match lightMatrix !! channel with
   | Some table =>
       match table !! period with
       | Some row => Done row
       | None => OutOfBounds
       end
   | None => OutOfBounds
   end).

Section Sketch.

(** Width of [int], number of channels, number of rows per channel. *)
Variable int_bits : Z.
Variables CHANNELS MAXPERIODS : nat.

(** [long GetSeconds(int hours, int minutes, int seconds)]:
    [((long)hours * 60 * 60) + (minutes * 60) + seconds].  The first product
    is computed in [long], [minutes * 60] in [int]. *)
Definition GetSeconds (hours minutes seconds : Z) : Z :=
  wrap long_bits
    (wrap long_bits
       (wrap long_bits (wrap long_bits (hours * 60) * 60)
        + wrap int_bits (minutes * 60))
     + seconds).

(** The transition between two periods, lines 155-163: the value assigned
    to [lightValue[channel]] when [seconds] is between [pEnd] and
    [pNextStart]. *)
Definition transition (preVal postVal pEnd pNextStart seconds : Z) : Z :=
  let tDur := wrap int_bits (wrap long_bits (pNextStart - pEnd)) in
  let intensityDiff := wrap int_bits (postVal - preVal) in
  let elapsed := of_Z (wrap long_bits (seconds - pEnd)) in
  if intensityDiff >? 0 then
    to_int int_bits (mul elapsed (div (of_Z intensityDiff) (of_Z tDur)))
  else
    wrap int_bits
      (preVal
       - to_int int_bits
           (mul elapsed (div (of_Z (wrap int_bits (0 - intensityDiff))) (of_Z tDur)))).

(** The inner loop of [UpdateLights], [for (period = 0; period < MAXPERIODS;
    period++)], entered at [period] with [fuel] iterations left.  [Some v]:
    the loop left by [break] after assigning [v] to [lightValue[channel]];
    [None]: the loop ran to its bound and assigned nothing. *)
Fixpoint periods_loop (lightMatrix : list (list Row)) (channel : nat)
    (seconds : Z) (fuel period : nat) : Run (option Z) :=
  match fuel with
  | O => ret None
  | S fuel' =>
      row <- read lightMatrix channel period ;;
      let pEnd := GetSeconds (END_H row) (END_M row) 0 in
      if pEnd >=? seconds then ret (Some (INTENSITY row))
      else
        next <- read lightMatrix channel (period + 1) ;;
        let pNextStart := GetSeconds (START_H next) (START_M next) 0 in
        if pNextStart >? seconds then
          ret (Some (transition (INTENSITY row) (INTENSITY next)
                       pEnd pNextStart seconds))
        else periods_loop lightMatrix channel seconds fuel' (S period)
  end.

(** The outer loop over the channels taken in the order [order], threading
    the array [lightValue].  The sketch only writes [lightValue[channel]]
    for [channel < CHANNELS], inside the array. *)
Fixpoint channels_loop (lightMatrix : list (list Row)) (seconds : Z)
    (order : list nat) (lightValue : list Z) : Run (list Z) :=
  match order with
  | [] => ret lightValue
  | channel :: rest =>
      v <- periods_loop lightMatrix channel seconds MAXPERIODS 0 ;;
      channels_loop lightMatrix seconds rest
        (match v with
         | Some x => <[channel := x]> lightValue
         | None => lightValue
         end)
  end.

(** [void UpdateLights(long seconds)] over the globals [lightMatrix] and
    [lightValue]: channels 0, 1, ..., CHANNELS - 1 in turn. *)
Definition UpdateLights (lightMatrix : list (list Row)) (lightValue : list Z)
    (seconds : Z) : Run (list Z) :=
  channels_loop lightMatrix seconds (seq 0 CHANNELS) lightValue.

End Sketch.

(** ** The sketch as shipped *)

Module Sketch.

Definition CHANNELS : nat := 2.
Definition MAXPERIODS : nat := 5.

Definition lightMatrix : list (list Row) :=
  [ [ mkRow 0 0 8 0 0;
      mkRow 8 30 11 0 255;
      mkRow 11 10 13 0 0;
      mkRow 13 10 20 0 255;
      mkRow 20 30 24 0 0 ];
    [ mkRow 0 0 7 45 0;
      mkRow 8 0 11 0 255;
      mkRow 11 10 13 0 0;
      mkRow 13 10 20 30 255;
      mkRow 20 45 24 0 0 ] ].

Definition lightValue : list Z := [0; 0].

(** [UpdateLights] of the sketch on a board whose [int] has [bits] bits. *)
Definition UpdateLights (bits : Z) (seconds : Z) : Run (list Z) :=
  UpdateLights bits CHANNELS MAXPERIODS lightMatrix lightValue seconds.

End Sketch.

(** The intensity [UpdateLights] leaves in [lightValue[channel]], when the
    run completes. *)
Definition resolved (run : Run (list Z)) (channel : nat) : option Z :=
  match result run with
  | Done lightValue => lightValue !! channel
  | OutOfBounds => None
  end.

(** The intensity a run of the inner loop assigned, if it assigned one. *)
Definition assigned (run : Run (option Z)) : option Z :=
  match result run with
  | Done v => v
  | OutOfBounds => None
  end.

(** ** Valid schedules

    The conditions the comment above [lightMatrix] puts on a table, which are
    the validity invariants of the schedule specification: the first start is
    00:00, some row ends at 24:00 and the first such row is the last one that
    counts, the rows up to it are chronological and do not overlap, and
    intensities are between 0 and 255.  Rows after the terminal one are
    placeholders and are not constrained. *)

Definition start_of (r : Row) : Z := START_H r * 3600 + START_M r * 60.
Definition end_of (r : Row) : Z := END_H r * 3600 + END_M r * 60.

(** A row holds two clock times, start no later than end, and an intensity. *)
Definition row_ok (r : Row) : bool :=
  (0 <=? START_H r) && (0 <=? START_M r) && (START_M r <? 60)
  && (0 <=? END_H r) && (0 <=? END_M r) && (END_M r <? 60)
  && (start_of r <=? end_of r) && (end_of r <=? 86400)
  && (0 <=? INTENSITY r) && (INTENSITY r <=? 255).

(** Rows in order up to the first one that ends at 24:00, each ending no
    later than the next one starts. *)
Fixpoint chronological (table : list Row) : bool :=
  match table with
  | [] => false
  | r :: rest =>
      row_ok r &&
      (if end_of r =? 86400 then true
       else match rest with
            | [] => false
            | next :: _ => (end_of r <=? start_of next) && chronological rest
            end)
  end.

(** Index of the terminal row: the first row that ends at 24:00. *)
Fixpoint terminal (table : list Row) : option nat :=
  match table with
  | [] => None
  | r :: rest => if end_of r =? 86400 then Some O else S <$> terminal rest
  end.

Definition valid_channel (MAXPERIODS : nat) (table : list Row) : bool :=
  (length table =? MAXPERIODS)%nat
  && match table with
     | r :: _ => start_of r =? 0
     | [] => false
     end
  && chronological table.

Definition valid_matrix (CHANNELS MAXPERIODS : nat) (lightMatrix : list (list Row)) : bool :=
  (length lightMatrix =? CHANNELS)%nat
  && forallb (valid_channel MAXPERIODS) lightMatrix.

(** Every gap between live rows lasts less than [2 ^ (int_bits - 1)] seconds,
    so that its duration fits [int tDur]. *)
Definition gaps_fit (int_bits : Z) (lightMatrix : list (list Row)) : Prop :=
  forall channel table k i row next,
    lightMatrix !! channel = Some table -> terminal table = Some k ->
    (i < k)%nat -> table !! i = Some row -> table !! S i = Some next ->
    start_of next - end_of row < 2 ^ (int_bits - 1).

(** ** The interpolation formula of the specification

    [output = periods[i].intensity + round_toward_zero(elapsed * delta /
    gapDuration)], the quotient being the exact one, truncated toward zero as
    by integer division. *)
Definition interpolate_exact (preVal postVal pEnd pNextStart seconds : Z) : Z :=
  preVal + Z.quot ((seconds - pEnd) * (postVal - preVal)) (pNextStart - pEnd).

(** The same formula with the quotient and the product taken in single
    precision and converted to [int], the way the sketch computes:
    [preVal + (int)(elapsed * ((float)delta / gapDuration))]. *)
Definition interpolate_float (int_bits : Z) (preVal postVal pEnd pNextStart seconds : Z) : Z :=
  wrap int_bits
    (preVal
     + to_int int_bits
         (mul (of_Z (seconds - pEnd))
            (div (of_Z (postVal - preVal)) (of_Z (pNextStart - pEnd))))).

(** What [row_ok] gives, as inequalities. *)
Record row_facts (r : Row) : Prop := {
  rf_start_h : 0 <= START_H r;
  rf_start_m : 0 <= START_M r < 60;
  rf_end_h : 0 <= END_H r;
  rf_end_m : 0 <= END_M r < 60;
  rf_start_end : start_of r <= end_of r;
  rf_end_day : end_of r <= 86400;
  rf_intensity : 0 <= INTENSITY r <= 255
}.

(** The rows of a valid table by index: [k] is the terminal row. *)
Record live (table : list Row) (k : nat) : Prop := {
  live_terminal : terminal table = Some k;
  live_last : exists r, table !! k = Some r /\ end_of r = 86400;
  live_rows : forall j r, (j <= k)%nat -> table !! j = Some r -> row_facts r;
  live_before : forall j r, (j < k)%nat -> table !! j = Some r -> end_of r < 86400;
  live_next : forall j r r', (j < k)%nat ->
      table !! j = Some r -> table !! S j = Some r' -> end_of r <= start_of r'
}.

(** The reads of [n] iterations that neither stop at their row nor at the
    gap after it, from row [p] on. *)
Definition skipped (channel p n : nat) : list (nat * nat) :=
  flat_map (fun j => [(channel, j); (channel, S j)]) (seq p n).

(** Where the inner loop stops on a valid table whose terminal row is [k],
    for a time up to 24:00: at a row that has not ended, or in the gap after a
    row.  The run is the reads made and the intensity assigned. *)
Inductive stop (int_bits : Z) (channel : nat) (table : list Row) (k : nat)
    (seconds : Z) : Run (option Z) -> Prop :=
  | stop_period i row :
      (i <= k)%nat -> table !! i = Some row -> seconds <= end_of row ->
      stop int_bits channel table k seconds
        (skipped channel O i ++ [(channel, i)], Done (Some (INTENSITY row)))
  | stop_gap i row next :
      (i < k)%nat -> table !! i = Some row -> table !! S i = Some next ->
      end_of row < seconds -> seconds < start_of next ->
      stop int_bits channel table k seconds
        (skipped channel O i ++ [(channel, i); (channel, S i)],
         Done (Some (transition int_bits (INTENSITY row) (INTENSITY next)
                       (end_of row) (start_of next) seconds))).

(** ** Rounding in single precision, for the proofs

    [located m l N Dn]: the location [l] places the exact fraction [N / Dn]
    relative to the integer [m], the way the shift-and-round of [SpecFloat]
    tracks the discarded bits. *)
Definition located (m : Z) (l : location) (N Dn : Z) : Prop :=
  match l with
  | loc_Exact => N = m * Dn
  | loc_Inexact Lt => m * Dn < N /\ 2 * N < (2 * m + 1) * Dn
  | loc_Inexact Eq => 2 * N = (2 * m + 1) * Dn
  | loc_Inexact Gt => (2 * m + 1) * Dn < 2 * N /\ N < (m + 1) * Dn
  end.

Definition record_located (mrs : shr_record) (N Dn : Z) : Prop :=
  0 <= shr_m mrs /\ located (shr_m mrs) (loc_of_shr_record mrs) N Dn.

Section RealValue.
Local Open Scope R_scope.

Definition pow2 (e : Z) : R := powerRZ 2 e.

Definition val (M : positive) (E : Z) : R := IZR (Z.pos M) * pow2 E.

(** [M * 2^E] is the float nearest to [v], to within half a unit in the last
    place, and within a quarter when the float is the bottom of its binade
    and [v] is below it. *)
Definition rounded (v : R) (M : positive) (E : Z) : Prop :=
  (2 ^ 23 <= Z.pos M < 2 ^ 24)%Z /\
  - (pow2 E / 2) <= val M E - v <= pow2 E / 2 /\
  (Z.pos M = (2 ^ 23)%Z -> val M E - v <= pow2 E / 4).

End RealValue.

(** ** Other tables in the format of the sketch

    Tables a user of the sketch can write in place of the shipped ones; the
    rows after the one that ends at 24:00 are the fillers the comment of the
    sketch describes. *)

Module Tables.

Definition filler : Row := mkRow 0 0 0 0 0.

(** Off until 01:00, then a fade of 22 hours to fully on at 23:00. *)
Definition slow_sunrise : list Row :=
  [ mkRow 0 0 1 0 0; mkRow 23 0 24 0 255; filler; filler; filler ].

(** Off until 01:00, then a fade of 10 hours to fully on at 11:00. *)
Definition morning_fade : list Row :=
  [ mkRow 0 0 1 0 0; mkRow 11 0 24 0 255; filler; filler; filler ].

(** At intensity 108 until 08:00, off from 08:25 on. *)
Definition quick_dusk : list Row :=
  [ mkRow 0 0 8 0 108; mkRow 8 25 24 0 0; filler; filler; filler ].

(** At intensity 100 until 08:00, at 200 from 08:30 on. *)
Definition brighten : list Row :=
  [ mkRow 0 0 8 0 100; mkRow 8 30 24 0 200; filler; filler; filler ].

(** A matrix for the two channels of the sketch: [table] on channel 0, the
    shipped table on channel 1. *)
Definition with_channel0 (table : list Row) : list (list Row) :=
  <[O := table]> Sketch.lightMatrix.

End Tables.

(** ** Tables of any contents

    [int lightMatrix[CHANNELS][MAXPERIODS][5]] has [CHANNELS] tables of
    [MAXPERIODS] rows whatever the rows hold. *)
Definition dimensioned (CHANNELS MAXPERIODS : nat) (lightMatrix : list (list Row)) : bool :=
  (length lightMatrix =? CHANNELS)%nat
  && forallb (fun table => (length table =? MAXPERIODS)%nat) lightMatrix.

(** A row in the format of the comment above [lightMatrix], the fillers
    included: two clock times up to 24:00, in any order, and any intensity. *)
Definition clock_row (r : Row) : bool :=
  (0 <=? START_H r) && (0 <=? START_M r) && (START_M r <? 60)
  && (0 <=? END_H r) && (0 <=? END_M r) && (END_M r <? 60)
  && (start_of r <=? 86400) && (end_of r <=? 86400).

(** ** The arithmetic of a fade

    [int tDur = pNextStart - pEnd], line 157: the duration that
    [transition] divides by. *)
Definition tDur (int_bits pEnd pNextStart : Z) : Z :=
  wrap int_bits (wrap long_bits (pNextStart - pEnd)).

(** The quotient [(float)intensityDiff / tDur] of lines 160 and 162, for the
    difference [delta] that is divided. *)
Definition slope (int_bits delta pEnd pNextStart : Z) : float :=
  div (of_Z delta) (of_Z (tDur int_bits pEnd pNextStart)).

(** The product [(seconds - pEnd) * slope] that is cast to [int]. *)
Definition faded (int_bits delta pEnd pNextStart seconds : Z) : float :=
  mul (of_Z (wrap long_bits (seconds - pEnd))) (slope int_bits delta pEnd pNextStart).

(** A float that is a number: neither an infinity nor NaN. *)
Definition is_finite (x : float) : bool :=
  match x with
  | S754_zero _ | S754_finite _ _ _ => true
  | S754_infinity _ | S754_nan => false
  end.

(** ** The main loop *)

Module Main.

(** What the sketch looks at in the [DateTime] that [RTC.now()] returns:
    [hour()], [minute()] and [second()], each a byte in RTClib. *)
Record DateTime : Type := mkDateTime {
  hour : Z;
  minute : Z;
  second : Z
}.

Definition L1Pin : Z := 9.
Definition L2Pin : Z := 10.

(** The globals that [loop] assigns. *)
Record Globals : Type := mkGlobals {
  Hours : Z;
  Minutes : Z;
  Seconds : Z;
  lightValue : list Z
}.

(** [void loop()], lines 191-203, for the clock reading [now]: the globals
    it leaves and the calls [analogWrite(pin, value)] it makes, in order.
    The array [lightValue] has [CHANNELS] entries; reading it at 0 and 1 is
    inside the array when there are two channels, as in the sketch. *)
Definition loop (int_bits : Z) (lightMatrix : list (list Row)) (now : DateTime)
    (globals : Globals) : Run (Globals * list (Z * Z)) :=
  let Hours := hour now in
  let Minutes := minute now in
  let Seconds := second now in
  lightValue <- UpdateLights int_bits Sketch.CHANNELS Sketch.MAXPERIODS lightMatrix
                  (lightValue globals) (GetSeconds int_bits Hours Minutes Seconds) ;;
  match lightValue !! O, lightValue !! 1%nat with
  | Some value0, Some value1 =>
      ret (mkGlobals Hours Minutes Seconds lightValue,
           [(L1Pin, value0); (L2Pin, value1)])
  | _, _ => ([], OutOfBounds)
  end.

End Main.

(** * Properties *)

(** ** Machine arithmetic that does not overflow *)

Lemma wrap_in_range bits z : 0 < bits -> in_range bits z -> wrap bits z = z.
Proof.
  unfold wrap, in_range. intros Hb Hz.
  assert (Hp : 2 ^ bits = 2 * 2 ^ (bits - 1)).
  { rewrite <- Z.pow_succ_r by lia. f_equal. lia. }
  rewrite Z.mod_small by lia. lia.
Qed.

Lemma wrap_int bits z : 16 <= bits -> - 32768 <= z < 32768 -> wrap bits z = z.
Proof.
  intros Hb Hz. apply wrap_in_range; [lia|]. unfold in_range.
  assert (2 ^ 15 <= 2 ^ (bits - 1)) by (apply Z.pow_le_mono_r; lia).
  change (2 ^ 15) with 32768 in *. lia.
Qed.

Lemma wrap_long z : - 2147483648 <= z < 2147483648 -> wrap long_bits z = z.
Proof. intros Hz. apply wrap_in_range; [reflexivity|]. exact Hz. Qed.

Lemma wrap_congr bits a b :
  0 < bits -> wrap bits (a - wrap bits b) = wrap bits (a + wrap bits (- b)).
Proof.
  intros Hb. unfold wrap. f_equal.
  assert (Hm : 0 < 2 ^ bits) by (apply Z.pow_pos_nonneg; lia).
  set (M := 2 ^ bits) in *. set (H := 2 ^ (bits - 1)).
  replace (a - ((b + H) mod M - H) + H) with ((a + 2 * H) - (b + H) mod M) by lia.
  replace (a + ((- b + H) mod M - H) + H) with (a + (- b + H) mod M) by lia.
  rewrite Zminus_mod_idemp_r, Zplus_mod_idemp_r.
  assert (HM : M = 2 * H).
  { unfold M, H. rewrite <- Z.pow_succ_r by lia. f_equal. lia. }
  replace (a + 2 * H - (b + H)) with (a + (- b + H)) by lia. reflexivity.
Qed.

Section Clock.

Variable int_bits : Z.
Hypothesis int_bits_ge : 16 <= int_bits.

Lemma GetSeconds_clock h m sec :
  0 <= h <= 24 -> 0 <= m < 60 -> 0 <= sec < 60 ->
  GetSeconds int_bits h m sec = h * 3600 + m * 60 + sec.
Proof.
  intros Hh Hm Hs. unfold GetSeconds.
  rewrite (wrap_int int_bits (m * 60)) by lia.
  rewrite (wrap_long (h * 60)) by lia.
  rewrite (wrap_long (h * 60 * 60)) by lia.
  rewrite (wrap_long (h * 60 * 60 + m * 60)) by lia.
  rewrite wrap_long by lia. lia.
Qed.

End Clock.


Lemma row_ok_facts r : row_ok r = true -> row_facts r.
Proof.
  unfold row_ok. rewrite !andb_true_iff.
  rewrite !Z.leb_le, !Z.ltb_lt. intros H. split; lia.
Qed.

Lemma row_facts_start_day r : row_facts r -> 0 <= start_of r <= 86400.
Proof. intros [? ? ? ? ? ? ?]. unfold start_of in *. lia. Qed.

Lemma row_facts_end_nonneg r : row_facts r -> 0 <= end_of r.
Proof. intros [? ? ? ? ? ? ?]. unfold end_of in *. lia. Qed.

Lemma GetSeconds_start int_bits r :
  16 <= int_bits -> row_facts r ->
  GetSeconds int_bits (START_H r) (START_M r) 0 = start_of r.
Proof.
  intros Hb Hr. pose proof (row_facts_start_day r Hr) as Hd.
  destruct Hr. unfold start_of in *. rewrite GetSeconds_clock; lia.
Qed.

Lemma GetSeconds_end int_bits r :
  16 <= int_bits -> row_facts r ->
  GetSeconds int_bits (END_H r) (END_M r) 0 = end_of r.
Proof.
  intros Hb Hr. destruct Hr. unfold end_of in *. rewrite GetSeconds_clock; lia.
Qed.

(** ** The rows of a valid table, by index *)

Lemma chronological_live table : chronological table = true -> exists k, live table k.
Proof.
  induction table as [|r rest IH]; simpl; [discriminate|].
  intros H. apply andb_true_iff in H as [Hr H].
  apply row_ok_facts in Hr.
  destruct (end_of r =? 86400) eqn:He.
  - apply Z.eqb_eq in He. exists O. split; simpl.
    + rewrite (proj2 (Z.eqb_eq _ _) He). reflexivity.
    + exists r. split; [reflexivity | exact He].
    + intros j r0 Hj Hl. assert (j = O) by lia. subst j. simpl in Hl.
      inversion Hl. subst r0. exact Hr.
    + intros j r0 Hj. lia.
    + intros j r0 r1 Hj. lia.
  - apply Z.eqb_neq in He. destruct rest as [|next rest']; [discriminate|].
    apply andb_true_iff in H as [Hn Hc]. apply Z.leb_le in Hn.
    destruct (IH Hc) as [k Hk]. exists (S k).
    destruct Hk as [Ht [rl [Hl1 Hl2]] Hrows Hbef Hnext]. split.
    + change (terminal (r :: next :: rest'))
        with (if end_of r =? 86400 then Some O else S <$> terminal (next :: rest')).
      rewrite (proj2 (Z.eqb_neq _ _) He), Ht. reflexivity.
    + exists rl. split; [exact Hl1 | exact Hl2].
    + intros [|j] r0 Hj Hl.
      * simpl in Hl. inversion Hl. subst r0. exact Hr.
      * apply (Hrows j); [lia | exact Hl].
    + intros [|j] r0 Hj Hl.
      * simpl in Hl. inversion Hl. subst r0. destruct Hr. lia.
      * apply (Hbef j); [lia | exact Hl].
    + intros [|j] r0 r1 Hj Hl Hl'.
      * simpl in Hl, Hl'. inversion Hl. inversion Hl'. subst. exact Hn.
      * apply (Hnext j); [lia | exact Hl | exact Hl'].
Qed.

Lemma live_lookup table k j :
  live table k -> (j <= k)%nat -> exists r, table !! j = Some r /\ row_facts r.
Proof.
  intros Hl Hj. destruct (live_last _ _ Hl) as [rl [Hk _]].
  apply lookup_lt_Some in Hk.
  destruct (lookup_lt_is_Some_2 table j) as [r Hr]; [lia|].
  exists r. split; [exact Hr|]. exact (live_rows _ _ Hl j r Hj Hr).
Qed.

(** Ends do not decrease along the live rows, and an earlier row ends no
    later than a later row starts. *)
Lemma live_end_mono table k :
  live table k ->
  forall j' j r r', (j <= j')%nat -> (j' <= k)%nat ->
    table !! j = Some r -> table !! j' = Some r' -> end_of r <= end_of r'.
Proof.
  intros Hl. induction j' as [|j' IH]; intros j r r' Hj Hk Hr Hr'.
  - assert (j = O) by lia. subst j. rewrite Hr in Hr'. inversion Hr'. lia.
  - destruct (decide (j = S j')) as [->|Hne].
    + rewrite Hr in Hr'. inversion Hr'. lia.
    + destruct (live_lookup table k j' Hl) as [r'' [Hr'' _]]; [lia|].
      pose proof (IH j r r'' ltac:(lia) ltac:(lia) Hr Hr'') as H1.
      pose proof (live_next _ _ Hl j' r'' r' ltac:(lia) Hr'' Hr') as H2.
      pose proof (rf_start_end _ (live_rows _ _ Hl (S j') r' Hk Hr')) as H3.
      lia.
Qed.

Lemma live_end_start table k j j' r r' :
  live table k -> (j < j')%nat -> (j' <= k)%nat ->
  table !! j = Some r -> table !! j' = Some r' -> end_of r <= start_of r'.
Proof.
  intros Hl Hj Hk Hr Hr'. destruct j' as [|j']; [lia|].
  destruct (live_lookup table k j' Hl) as [r'' [Hr'' _]]; [lia|].
  pose proof (live_end_mono table k Hl j' j r r'' ltac:(lia) ltac:(lia) Hr Hr'').
  pose proof (live_next _ _ Hl j' r'' r' ltac:(lia) Hr'' Hr'). lia.
Qed.

Lemma valid_channel_live MAXPERIODS table :
  valid_channel MAXPERIODS table = true ->
  length table = MAXPERIODS /\
  (exists r, table !! O = Some r /\ start_of r = 0) /\
  exists k, live table k /\ (k < MAXPERIODS)%nat.
Proof.
  unfold valid_channel. rewrite !andb_true_iff. intros [[Hlen H0] Hc].
  apply Nat.eqb_eq in Hlen. split; [exact Hlen|]. split.
  - destruct table as [|r rest]; [discriminate|].
    exists r. split; [reflexivity | apply Z.eqb_eq; exact H0].
  - destruct (chronological_live table Hc) as [k Hk]. exists k.
    split; [exact Hk|]. destruct (live_last _ _ Hk) as [rl [Hl _]].
    apply lookup_lt_Some in Hl. lia.
Qed.

Lemma valid_matrix_lookup_lt CHANNELS MAXPERIODS lightMatrix channel table :
  valid_matrix CHANNELS MAXPERIODS lightMatrix = true ->
  lightMatrix !! channel = Some table -> (channel < CHANNELS)%nat.
Proof.
  unfold valid_matrix. rewrite andb_true_iff. intros [Hlen _] Ht.
  apply Nat.eqb_eq in Hlen. apply lookup_lt_Some in Ht. lia.
Qed.

Lemma valid_matrix_channel CHANNELS MAXPERIODS lightMatrix channel :
  valid_matrix CHANNELS MAXPERIODS lightMatrix = true -> (channel < CHANNELS)%nat ->
  exists table, lightMatrix !! channel = Some table /\
                valid_channel MAXPERIODS table = true.
Proof.
  unfold valid_matrix. rewrite andb_true_iff. intros [Hlen Hall] Hc.
  apply Nat.eqb_eq in Hlen.
  destruct (lookup_lt_is_Some_2 lightMatrix channel) as [table Ht]; [lia|].
  exists table. split; [exact Ht|].
  rewrite forallb_forall in Hall. apply Hall.
  apply list_elem_of_In. eapply list_elem_of_lookup_2. exact Ht.
Qed.

(** ** One iteration of the inner loop *)

Lemma run_eta {A} (r : Run A) : (reads r, result r) = r.
Proof. destruct r. reflexivity. Qed.

Lemma read_row lightMatrix channel period table row :
  lightMatrix !! channel = Some table -> table !! period = Some row ->
  read lightMatrix channel period = ([(channel, period)], Done row).
Proof. intros Ht Hr. unfold read. rewrite Ht, Hr. reflexivity. Qed.

Lemma read_past lightMatrix channel period table :
  lightMatrix !! channel = Some table -> table !! period = None ->
  read lightMatrix channel period = ([(channel, period)], OutOfBounds).
Proof. intros Ht Hr. unfold read. rewrite Ht, Hr. reflexivity. Qed.


Section Iteration.

Variable int_bits : Z.
Variable lightMatrix : list (list Row).
Variable channel : nat.
Variable table : list Row.
Variable seconds : Z.
Hypothesis Htable : lightMatrix !! channel = Some table.

Local Abbreviation pEnd r := (GetSeconds int_bits (END_H r) (END_M r) 0).
Local Abbreviation pStart r := (GetSeconds int_bits (START_H r) (START_M r) 0).

Lemma periods_loop_unfold fuel period :
  periods_loop int_bits lightMatrix channel seconds (S fuel) period
  = (row <- read lightMatrix channel period ;;
     if pEnd row >=? seconds then ret (Some (INTENSITY row))
     else
       next <- read lightMatrix channel (period + 1) ;;
       if pStart next >? seconds then
         ret (Some (transition int_bits (INTENSITY row) (INTENSITY next)
                      (pEnd row) (pStart next) seconds))
       else periods_loop int_bits lightMatrix channel seconds fuel (S period)).
Proof. reflexivity. Qed.

Lemma periods_loop_period fuel period row :
  table !! period = Some row -> seconds <= pEnd row ->
  periods_loop int_bits lightMatrix channel seconds (S fuel) period
  = ([(channel, period)], Done (Some (INTENSITY row))).
Proof.
  intros Hr Hle. rewrite periods_loop_unfold.
  rewrite (read_row _ _ _ _ _ Htable Hr). unfold bind.
  rewrite Z.geb_leb. rewrite (proj2 (Z.leb_le _ _) Hle). reflexivity.
Qed.

Lemma periods_loop_gap fuel period row next :
  table !! period = Some row -> table !! S period = Some next ->
  pEnd row < seconds -> seconds < pStart next ->
  periods_loop int_bits lightMatrix channel seconds (S fuel) period
  = ([(channel, period); (channel, S period)],
     Done (Some (transition int_bits (INTENSITY row) (INTENSITY next)
                   (pEnd row) (pStart next) seconds))).
Proof.
  intros Hr Hn Hlt Hgt. rewrite periods_loop_unfold.
  rewrite (read_row _ _ _ _ _ Htable Hr). unfold bind.
  rewrite Z.geb_leb. rewrite (proj2 (Z.leb_gt _ _) Hlt).
  rewrite Nat.add_1_r. rewrite (read_row _ _ _ _ _ Htable Hn).
  rewrite Z.gtb_ltb. rewrite (proj2 (Z.ltb_lt _ _) Hgt). reflexivity.
Qed.

Lemma periods_loop_past fuel period row :
  table !! period = Some row -> table !! S period = None ->
  pEnd row < seconds ->
  periods_loop int_bits lightMatrix channel seconds (S fuel) period
  = ([(channel, period); (channel, S period)], OutOfBounds).
Proof.
  intros Hr Hn Hlt. rewrite periods_loop_unfold.
  rewrite (read_row _ _ _ _ _ Htable Hr). unfold bind.
  rewrite Z.geb_leb. rewrite (proj2 (Z.leb_gt _ _) Hlt).
  rewrite Nat.add_1_r. rewrite (read_past _ _ _ _ Htable Hn). reflexivity.
Qed.

Lemma periods_loop_next fuel period row next :
  table !! period = Some row -> table !! S period = Some next ->
  pEnd row < seconds -> pStart next <= seconds ->
  periods_loop int_bits lightMatrix channel seconds (S fuel) period
  = let rest := periods_loop int_bits lightMatrix channel seconds fuel (S period) in
    ([(channel, period); (channel, S period)] ++ reads rest, result rest).
Proof.
  intros Hr Hn Hlt Hle. rewrite periods_loop_unfold.
  rewrite (read_row _ _ _ _ _ Htable Hr). unfold bind.
  rewrite Z.geb_leb. rewrite (proj2 (Z.leb_gt _ _) Hlt).
  rewrite Nat.add_1_r. rewrite (read_row _ _ _ _ _ Htable Hn).
  rewrite Z.gtb_ltb. rewrite (proj2 (Z.ltb_ge _ _) Hle). reflexivity.
Qed.

(** [n] iterations in a row that move on to the next row. *)
Lemma periods_loop_skip n : forall fuel p,
  (forall j, (p <= j < p + n)%nat ->
     exists row next, table !! j = Some row /\ table !! S j = Some next /\
                      pEnd row < seconds /\ pStart next <= seconds) ->
  periods_loop int_bits lightMatrix channel seconds (n + fuel) p
  = let rest := periods_loop int_bits lightMatrix channel seconds fuel (p + n) in
    (skipped channel p n ++ reads rest, result rest).
Proof.
  induction n as [|n IH]; intros fuel p Hall.
  - rewrite Nat.add_0_r. simpl. symmetry. apply run_eta.
  - destruct (Hall p ltac:(lia)) as [row [next [Hr [Hn [Hlt Hle]]]]].
    change (S n + fuel)%nat with (S (n + fuel)).
    rewrite (periods_loop_next _ _ _ _ Hr Hn Hlt Hle).
    rewrite IH by (intros j Hj; apply Hall; lia).
    cbv zeta. unfold reads, result. simpl fst. simpl snd.
    rewrite Nat.add_succ_r. unfold skipped. simpl. reflexivity.
Qed.

End Iteration.

(** ** The inner loop on a valid table *)

Section ValidTable.

Variable int_bits : Z.
Variable MAXPERIODS : nat.
Variable lightMatrix : list (list Row).
Variable channel : nat.
Variable table : list Row.
Variable k : nat.
Variable seconds : Z.
Hypothesis int_bits_ge : 16 <= int_bits.
Hypothesis Htable : lightMatrix !! channel = Some table.
Hypothesis Hlen : length table = MAXPERIODS.
Hypothesis Hlive : live table k.

Local Abbreviation scan :=
  (periods_loop int_bits lightMatrix channel seconds MAXPERIODS O).

Lemma terminal_in_table : (k < MAXPERIODS)%nat.
Proof.
  destruct (live_last _ _ Hlive) as [rl [Hl _]].
  apply lookup_lt_Some in Hl. lia.
Qed.

(** The loop arrives at row [i] when every earlier row has ended and every
    row up to [i] has started. *)
Lemma scan_reach i :
  (i <= k)%nat ->
  (forall j r, (j < i)%nat -> table !! j = Some r -> end_of r < seconds) ->
  (forall j r, (0 < j <= i)%nat -> table !! j = Some r -> start_of r <= seconds) ->
  scan
  = let rest := periods_loop int_bits lightMatrix channel seconds
                  (MAXPERIODS - i) i in
    (skipped channel O i ++ reads rest, result rest).
Proof.
  intros Hi Hends Hstarts. pose proof terminal_in_table as Hk.
  replace MAXPERIODS with (i + (MAXPERIODS - i))%nat at 1 by lia.
  rewrite (periods_loop_skip int_bits lightMatrix channel table seconds Htable i).
  - reflexivity.
  - intros j Hj.
    destruct (live_lookup table k j Hlive) as [row [Hr Hrf]]; [lia|].
    destruct (live_lookup table k (S j) Hlive) as [next [Hn Hnf]]; [lia|].
    exists row, next. split; [exact Hr|]. split; [exact Hn|].
    rewrite (GetSeconds_end int_bits row int_bits_ge Hrf).
    rewrite (GetSeconds_start int_bits next int_bits_ge Hnf).
    split; [apply (Hends j); [lia | exact Hr] | apply (Hstarts (S j)); [lia | exact Hn]].
Qed.

(** [seconds] is after row [i], so after all the rows up to it. *)
Lemma ended_before i row :
  (i <= k)%nat -> table !! i = Some row -> end_of row < seconds ->
  (forall j r, (j <= i)%nat -> table !! j = Some r -> end_of r < seconds) /\
  (forall j r, (j <= i)%nat -> table !! j = Some r -> start_of r <= seconds).
Proof.
  intros Hi Hr Hlt. split; intros j r Hj Hjr.
  - pose proof (live_end_mono table k Hlive i j r row Hj Hi Hjr Hr). lia.
  - pose proof (live_end_mono table k Hlive i j r row Hj Hi Hjr Hr).
    pose proof (rf_start_end _ (live_rows _ _ Hlive j r ltac:(lia) Hjr)). lia.
Qed.

(** The loop stops at row [i] when the row before it has ended, row [i]
    has started and has not ended. *)
Lemma scan_period i row :
  (i <= k)%nat -> table !! i = Some row ->
  (forall j r, i = S j -> table !! j = Some r -> end_of r < seconds) ->
  (i <> O -> start_of row <= seconds) ->
  seconds <= end_of row ->
  scan = (skipped channel O i ++ [(channel, i)], Done (Some (INTENSITY row))).
Proof.
  intros Hi Hr Hprev Hstart Hle. pose proof terminal_in_table as Hk.
  assert (Hb : forall j r, (j < i)%nat -> table !! j = Some r ->
                 end_of r < seconds /\ start_of r <= seconds).
  { intros j r Hj Hjr. destruct i as [|i']; [lia|].
    destruct (live_lookup table k i' Hlive) as [r' [Hr' _]]; [lia|].
    pose proof (Hprev i' r' eq_refl Hr') as Hlt.
    destruct (ended_before i' r' ltac:(lia) Hr' Hlt) as [He Hs].
    split; [apply (He j) | apply (Hs j)]; auto; lia. }
  rewrite (scan_reach i Hi).
  - replace (MAXPERIODS - i)%nat with (S (MAXPERIODS - i - 1)) by lia.
    rewrite (periods_loop_period int_bits lightMatrix channel table seconds
               Htable _ i row Hr).
    + reflexivity.
    + rewrite (GetSeconds_end int_bits row int_bits_ge
                 (live_rows _ _ Hlive i row Hi Hr)). exact Hle.
  - intros j r Hj Hjr. apply (Hb j r Hj Hjr).
  - intros j r Hj Hjr. destruct (decide (j = i)) as [->|Hne].
    + rewrite Hr in Hjr. inversion Hjr. subst r. apply Hstart. lia.
    + apply (Hb j r); [lia | exact Hjr].
Qed.

(** The loop stops in the gap after row [i] when [seconds] is inside it. *)
Lemma scan_gap i row next :
  (i < k)%nat -> table !! i = Some row -> table !! S i = Some next ->
  end_of row < seconds -> seconds < start_of next ->
  scan = (skipped channel O i ++ [(channel, i); (channel, S i)],
          Done (Some (transition int_bits (INTENSITY row) (INTENSITY next)
                        (end_of row) (start_of next) seconds))).
Proof.
  intros Hi Hr Hn Hlt Hgt. pose proof terminal_in_table as Hk.
  destruct (ended_before i row ltac:(lia) Hr Hlt) as [He Hs].
  pose proof (live_rows _ _ Hlive i row ltac:(lia) Hr) as Hrf.
  pose proof (live_rows _ _ Hlive (S i) next ltac:(lia) Hn) as Hnf.
  rewrite (scan_reach i ltac:(lia)).
  - replace (MAXPERIODS - i)%nat with (S (MAXPERIODS - i - 1)) by lia.
    rewrite (periods_loop_gap int_bits lightMatrix channel table seconds
               Htable _ i row next Hr Hn).
    + rewrite (GetSeconds_end int_bits row int_bits_ge Hrf).
      rewrite (GetSeconds_start int_bits next int_bits_ge Hnf). reflexivity.
    + rewrite (GetSeconds_end int_bits row int_bits_ge Hrf). exact Hlt.
    + rewrite (GetSeconds_start int_bits next int_bits_ge Hnf). exact Hgt.
  - intros j r Hj Hjr. apply (He j r); [lia | exact Hjr].
  - intros j r Hj Hjr. apply (Hs j r); [lia | exact Hjr].
Qed.

(** Past 24:00 the loop walks over every live row; when the terminal row
    is the last row of the array, it then indexes the array out of bounds. *)
Lemma scan_past :
  86400 < seconds -> S k = MAXPERIODS ->
  scan = (skipped channel O k ++ [(channel, k); (channel, S k)], OutOfBounds).
Proof.
  intros Hlt HS. destruct (live_last _ _ Hlive) as [rl [Hl He]].
  destruct (ended_before k rl ltac:(lia) Hl ltac:(lia)) as [Hen Hs].
  rewrite (scan_reach k ltac:(lia)).
  - replace (MAXPERIODS - k)%nat with 1%nat by lia.
    rewrite (periods_loop_past int_bits lightMatrix channel table seconds
               Htable _ k rl Hl).
    + reflexivity.
    + apply lookup_ge_None_2. lia.
    + rewrite (GetSeconds_end int_bits rl int_bits_ge
                 (live_rows _ _ Hlive k rl ltac:(lia) Hl)). lia.
  - intros j r Hj Hjr. apply (Hen j r); [lia | exact Hjr].
  - intros j r Hj Hjr. apply (Hs j r); [lia | exact Hjr].
Qed.


Lemma scan_stops_from d : forall i,
  (i + d = k)%nat ->
  (forall j r, i = S j -> table !! j = Some r -> end_of r < seconds) ->
  (forall r, i <> O -> table !! i = Some r -> start_of r <= seconds) ->
  seconds <= 86400 ->
  stop int_bits channel table k seconds scan.
Proof.
  induction d as [|d IH]; intros i Hid Hprev Hstart Hday.
  - destruct (live_last _ _ Hlive) as [rl [Hl He]].
    assert (i = k) by lia. subst i.
    rewrite (scan_period k rl (Nat.le_refl _) Hl Hprev); [| eauto | lia].
    apply stop_period; [lia | exact Hl | lia].
  - destruct (live_lookup table k i Hlive) as [row [Hr _]]; [lia|].
    destruct (Z_le_gt_dec seconds (end_of row)) as [Hle|Hgt].
    + rewrite (scan_period i row ltac:(lia) Hr Hprev); [| eauto | exact Hle].
      apply stop_period; [lia | exact Hr | exact Hle].
    + destruct (live_lookup table k (S i) Hlive) as [next [Hn _]]; [lia|].
      destruct (Z_lt_le_dec seconds (start_of next)) as [Hlt|Hge].
      * rewrite (scan_gap i row next ltac:(lia) Hr Hn ltac:(lia) Hlt).
        apply stop_gap; [lia | exact Hr | exact Hn | lia | exact Hlt].
      * apply (IH (S i)); [lia | | | exact Hday].
        -- intros j r Hj Hjr. inversion Hj. subst j.
           rewrite Hr in Hjr. inversion Hjr. subst r. lia.
        -- intros r _ Hjr. rewrite Hn in Hjr. inversion Hjr. subst r. exact Hge.
Qed.

Lemma scan_stops : seconds <= 86400 -> stop int_bits channel table k seconds scan.
Proof.
  intros Hday. apply (scan_stops_from k O); [lia | | | exact Hday].
  - intros j r Hj. discriminate.
  - intros r H0. congruence.
Qed.

End ValidTable.

(** ** The outer loop *)

Lemma skipped_bound channel i c p :
  (c, p) ∈ skipped channel O i -> c = channel /\ (p <= i)%nat.
Proof.
  unfold skipped. rewrite list_elem_of_In, in_flat_map.
  intros [j [Hj Hin]]. apply in_seq in Hj.
  simpl in Hin. destruct Hin as [H|[H|[]]]; inversion H; subst; lia.
Qed.

Lemma stop_reads int_bits channel table k seconds run c p :
  stop int_bits channel table k seconds run -> (c, p) ∈ reads run ->
  c = channel /\ (p <= k)%nat.
Proof.
  intros Hs Hin. destruct Hs as [i row Hi _ _ | i row next Hi _ _ _ _];
    unfold reads in Hin; simpl in Hin; apply elem_of_app in Hin as [Hin|Hin].
  - apply skipped_bound in Hin. lia.
  - apply list_elem_of_singleton in Hin. inversion Hin. subst. lia.
  - apply skipped_bound in Hin. lia.
  - apply elem_of_cons in Hin as [Hin|Hin].
    + inversion Hin. subst. lia.
    + apply list_elem_of_singleton in Hin. inversion Hin. subst. lia.
Qed.

Lemma stop_assigned int_bits channel table k seconds run :
  stop int_bits channel table k seconds run -> exists v, result run = Done (Some v).
Proof. intros [i row _ _ _ | i row next _ _ _ _ _]; eexists; reflexivity. Qed.

Section Channels.

Variable int_bits : Z.
Variables CHANNELS MAXPERIODS : nat.
Variable lightMatrix : list (list Row).
Variable seconds : Z.

Local Abbreviation scan channel :=
  (periods_loop int_bits lightMatrix channel seconds MAXPERIODS O).

(** When the inner loop assigns an intensity for every channel of [order],
    the outer loop completes; the entry of a channel of [order] is what its
    inner loop assigned, and the other entries are left as they were. *)
Lemma channels_loop_lookup order : forall lightValue,
  (forall c, c ∈ order -> exists v, result (scan c) = Done (Some v)) ->
  exists lightValue',
    result (channels_loop int_bits MAXPERIODS lightMatrix seconds order lightValue)
    = Done lightValue' /\
    length lightValue' = length lightValue /\
    forall c, (c < length lightValue)%nat ->
      lightValue' !! c = if decide (c ∈ order) then assigned (scan c)
                         else lightValue !! c.
Proof.
  induction order as [|c0 rest IH]; intros lightValue Hall.
  - exists lightValue. split; [reflexivity|]. split; [reflexivity|].
    intros c Hc. destruct (decide (c ∈ [])) as [Hin|_]; [|reflexivity].
    apply elem_of_nil in Hin. contradiction.
  - destruct (Hall c0 ltac:(left)) as [v Hv].
    destruct (IH (<[c0 := v]> lightValue)) as [lv' [Hres [Hlen Hlook]]].
    { intros c Hc. apply Hall. right. exact Hc. }
    exists lv'. split; [|split].
    + simpl. destruct (scan c0) as [log r] eqn:Hs.
      unfold result in Hv. simpl in Hv. subst r. unfold bind.
      unfold result at 1. simpl snd. exact Hres.
    + rewrite Hlen. apply length_insert.
    + intros c Hc. rewrite Hlook by (rewrite length_insert; exact Hc).
      destruct (decide (c ∈ rest)) as [Hin|Hnin].
      * rewrite decide_True by (right; exact Hin). reflexivity.
      * destruct (decide (c = c0)) as [->|Hne].
        -- rewrite decide_True by left.
           rewrite list_lookup_insert_eq by exact Hc.
           unfold assigned. rewrite Hv. reflexivity.
        -- rewrite decide_False.
           ++ apply list_lookup_insert_ne. congruence.
           ++ intros Hin. apply elem_of_cons in Hin as [?|?]; contradiction.
Qed.

(** The rows the outer loop reads are the rows its inner loops read. *)
Lemma channels_loop_reads order : forall lightValue c p,
  (c, p) ∈ reads (channels_loop int_bits MAXPERIODS lightMatrix seconds order lightValue) ->
  exists c0, c0 ∈ order /\ (c, p) ∈ reads (scan c0).
Proof.
  induction order as [|c0 rest IH]; intros lightValue c p Hin.
  - unfold reads in Hin. simpl in Hin. apply elem_of_nil in Hin. contradiction.
  - simpl in Hin.
    destruct (scan c0) as [log [v|]] eqn:Hs; unfold bind, reads in Hin; simpl in Hin.
    + apply elem_of_app in Hin as [Hin|Hin].
      * exists c0. split; [left|]. rewrite Hs. exact Hin.
      * destruct (IH _ c p Hin) as [c1 [Hc1 Hr]].
        exists c1. split; [right; exact Hc1 | exact Hr].
    + exists c0. split; [left|]. rewrite Hs. exact Hin.
Qed.

(** An inner loop that indexes out of bounds makes the whole run do so. *)
Lemma channels_loop_fault order : forall lightValue c,
  c ∈ order -> result (scan c) = OutOfBounds ->
  result (channels_loop int_bits MAXPERIODS lightMatrix seconds order lightValue)
  = OutOfBounds.
Proof.
  induction order as [|c0 rest IH]; intros lightValue c Hin Hf.
  - apply elem_of_nil in Hin. contradiction.
  - simpl. destruct (scan c0) as [log [v|]] eqn:Hs.
    + unfold bind. unfold result at 1. simpl snd.
      apply elem_of_cons in Hin as [->|Hin].
      * rewrite Hs in Hf. discriminate.
      * apply (IH _ c Hin Hf).
    + reflexivity.
Qed.

Hypothesis int_bits_ge : 16 <= int_bits.
Hypothesis Hvalid : valid_matrix CHANNELS MAXPERIODS lightMatrix = true.

(** On a valid matrix, up to 24:00, the inner loop of every channel stops at
    a live row or in a gap between live rows. *)
Lemma channel_stops channel :
  (channel < CHANNELS)%nat -> seconds <= 86400 ->
  exists table k,
    lightMatrix !! channel = Some table /\ length table = MAXPERIODS /\
    live table k /\ (k < MAXPERIODS)%nat /\
    stop int_bits channel table k seconds (scan channel).
Proof.
  intros Hc Hday.
  destruct (valid_matrix_channel _ _ _ _ Hvalid Hc) as [table [Ht Hv]].
  destruct (valid_channel_live _ _ Hv) as [Hlen [_ [k [Hl Hk]]]].
  exists table, k.
  split; [exact Ht|]. split; [exact Hlen|]. split; [exact Hl|]. split; [exact Hk|].
  apply (scan_stops int_bits MAXPERIODS lightMatrix channel table k seconds
           int_bits_ge Ht Hlen Hl Hday).
Qed.

(** [UpdateLights] completes and leaves in each channel what the inner loop
    of that channel assigned, whatever the order of the channels. *)
Lemma channels_loop_resolved order lightValue channel :
  (forall c, c ∈ order -> (c < CHANNELS)%nat) -> channel ∈ order ->
  length lightValue = CHANNELS -> seconds <= 86400 ->
  exists v, assigned (scan channel) = Some v /\
    resolved (channels_loop int_bits MAXPERIODS lightMatrix seconds order lightValue)
      channel = Some v.
Proof.
  intros Hord Hin Hlen Hday.
  destruct (channels_loop_lookup order lightValue) as [lv' [Hres [_ Hlook]]].
  { intros c Hc. destruct (channel_stops c (Hord c Hc) Hday)
      as [table [k [_ [_ [_ [_ Hs]]]]]].
    apply (stop_assigned _ _ _ _ _ _ Hs). }
  destruct (channel_stops channel (Hord _ Hin) Hday)
    as [table [k [_ [_ [_ [_ Hs]]]]]].
  destruct (stop_assigned _ _ _ _ _ _ Hs) as [v Hv].
  exists v. split.
  - unfold assigned. rewrite Hv. reflexivity.
  - unfold resolved. rewrite Hres. rewrite Hlook by (rewrite Hlen; apply Hord, Hin).
    rewrite decide_True by exact Hin. unfold assigned. rewrite Hv. reflexivity.
Qed.

Lemma UpdateLights_resolved lightValue channel :
  (channel < CHANNELS)%nat -> length lightValue = CHANNELS -> seconds <= 86400 ->
  exists v, assigned (scan channel) = Some v /\
    resolved (UpdateLights int_bits CHANNELS MAXPERIODS lightMatrix lightValue seconds)
      channel = Some v.
Proof.
  intros Hc Hlen Hday. unfold UpdateLights.
  apply channels_loop_resolved; try assumption.
  - intros c Hin. apply list_elem_of_In, in_seq in Hin. lia.
  - apply list_elem_of_In, in_seq. lia.
Qed.

End Channels.

(** ** Signs in single precision

    Rounding to nearest is symmetric: negating an operand negates the
    quotient, the product and the truncated value. *)

Lemma binary_round_aux_opp s m e l :
  binary_round_aux prec emax (negb s) m e l
  = SFopp (binary_round_aux prec emax s m e l).
Proof.
  unfold binary_round_aux.
  destruct (shr_fexp prec emax m e l) as [mrs' e'].
  destruct (shr_fexp prec emax _ e' loc_Exact) as [mrs'' e''].
  destruct (shr_m mrs''); try reflexivity.
  destruct (e'' <=? emax - prec); reflexivity.
Qed.

Lemma of_Z_opp z : z <> 0 -> of_Z (- z) = SFopp (of_Z z).
Proof.
  intros Hz. destruct z as [|p|p]; [congruence| |]; unfold of_Z; simpl;
    unfold binary_round;
    destruct (shl_align p 0 _) as [mz ez].
  - apply (binary_round_aux_opp false).
  - rewrite <- (binary_round_aux_opp true). reflexivity.
Qed.

Lemma div_opp_l x y : div (SFopp x) y = SFopp (div x y).
Proof.
  unfold div. destruct x as [sx|sx| |sx mx ex], y as [sy|sy| |sy my ey];
    simpl; try reflexivity; try (destruct sx, sy; reflexivity).
  destruct (SFdiv_core_binary prec emax (Z.pos mx) ex (Z.pos my) ey) as [[mz ez] lz].
  rewrite <- binary_round_aux_opp. f_equal. destruct sx, sy; reflexivity.
Qed.

Lemma mul_opp_r x y : mul x (SFopp y) = SFopp (mul x y).
Proof.
  unfold mul. destruct x as [sx|sx| |sx mx ex], y as [sy|sy| |sy my ey];
    simpl; try reflexivity; try (destruct sx, sy; reflexivity).
  rewrite <- binary_round_aux_opp. f_equal. destruct sx, sy; reflexivity.
Qed.

Lemma trunc_opp x : trunc (SFopp x) = - trunc x.
Proof.
  destruct x as [s|s| |s m e]; simpl; try reflexivity.
  destruct s; simpl; lia.
Qed.

Lemma trunc_mul_div_zero x y : trunc (mul x (div (of_Z 0) y)) = 0.
Proof.
  unfold mul, div, of_Z. simpl.
  destruct x as [sx|sx| |sx mx ex], y as [sy|sy| |sy my ey]; reflexivity.
Qed.

Lemma wrap_range bits z : 0 < bits -> in_range bits (wrap bits z).
Proof.
  intros Hb. unfold in_range, wrap.
  assert (HM : 2 ^ bits = 2 * 2 ^ (bits - 1)).
  { rewrite <- Z.pow_succ_r by lia. f_equal. lia. }
  assert (0 < 2 ^ (bits - 1)) by (apply Z.pow_pos_nonneg; lia).
  pose proof (Z.mod_pos_bound (z + 2 ^ (bits - 1)) (2 ^ bits) ltac:(lia)). lia.
Qed.

Lemma wrap_wrap bits z : 0 < bits -> wrap bits (wrap bits z) = wrap bits z.
Proof. intros Hb. apply wrap_in_range; [exact Hb | apply wrap_range; exact Hb]. Qed.

(** ** The transition without integer overflow *)

Section Transition.

Variable int_bits : Z.
Hypothesis int_bits_ge : 16 <= int_bits.

Variables preVal postVal pEnd pNextStart seconds : Z.
Hypothesis preVal_range : 0 <= preVal <= 255.
Hypothesis postVal_range : 0 <= postVal <= 255.
Hypothesis pEnd_range : 0 <= pEnd.
Hypothesis in_gap : pEnd < seconds < pNextStart.
Hypothesis pNextStart_range : pNextStart <= 86400.
Hypothesis gap_fits : pNextStart - pEnd < 2 ^ (int_bits - 1).

Lemma tDur_exact :
  wrap int_bits (wrap long_bits (pNextStart - pEnd)) = pNextStart - pEnd.
Proof.
  rewrite wrap_long by lia. apply wrap_in_range; [lia|].
  unfold in_range. assert (0 < 2 ^ (int_bits - 1)) by (apply Z.pow_pos_nonneg; lia).
  lia.
Qed.

Lemma elapsed_exact : wrap long_bits (seconds - pEnd) = seconds - pEnd.
Proof. apply wrap_long. lia. Qed.

Lemma intensityDiff_exact : wrap int_bits (postVal - preVal) = postVal - preVal.
Proof. apply wrap_int; [exact int_bits_ge | lia]. Qed.

(** The increasing branch, line 160: the previous intensity is not added. *)
Lemma transition_increasing :
  preVal < postVal ->
  transition int_bits preVal postVal pEnd pNextStart seconds
  = to_int int_bits
      (mul (of_Z (seconds - pEnd))
         (div (of_Z (postVal - preVal)) (of_Z (pNextStart - pEnd)))).
Proof.
  intros Hlt. unfold transition.
  rewrite tDur_exact, elapsed_exact, intensityDiff_exact.
  rewrite (proj2 (Z.gtb_gt _ _)) by lia. reflexivity.
Qed.

(** The decreasing branch, line 162. *)
Lemma transition_decreasing :
  postVal <= preVal ->
  transition int_bits preVal postVal pEnd pNextStart seconds
  = wrap int_bits
      (preVal
       - to_int int_bits
           (mul (of_Z (seconds - pEnd))
              (div (of_Z (preVal - postVal)) (of_Z (pNextStart - pEnd))))).
Proof.
  intros Hle. unfold transition.
  rewrite tDur_exact, elapsed_exact, intensityDiff_exact.
  replace (postVal - preVal >? 0) with false
    by (symmetry; rewrite Z.gtb_ltb; apply Z.ltb_ge; lia).
  rewrite (wrap_int int_bits (0 - (postVal - preVal))) by lia.
  replace (0 - (postVal - preVal)) with (preVal - postVal) by lia. reflexivity.
Qed.

(** The decreasing branch is the one formula of the specification with a
    negative difference, when the formula is evaluated in single precision. *)
Lemma transition_decreasing_float :
  postVal <= preVal ->
  transition int_bits preVal postVal pEnd pNextStart seconds
  = interpolate_float int_bits preVal postVal pEnd pNextStart seconds.
Proof.
  intros Hle. rewrite (transition_decreasing Hle). unfold interpolate_float, to_int.
  rewrite wrap_congr by lia. f_equal. f_equal.
  destruct (Z.eq_dec preVal postVal) as [Heq|Hne].
  - replace (preVal - postVal) with 0 by lia.
    replace (postVal - preVal) with 0 by lia.
    rewrite trunc_mul_div_zero. reflexivity.
  - replace (preVal - postVal) with (- (postVal - preVal)) by lia.
    rewrite of_Z_opp by lia. rewrite div_opp_l, mul_opp_r, trunc_opp.
    rewrite Z.opp_involutive. reflexivity.
Qed.

(** From darkness the increasing branch agrees with the formula too. *)
Lemma transition_from_zero_float :
  preVal = 0 -> 0 < postVal ->
  transition int_bits preVal postVal pEnd pNextStart seconds
  = interpolate_float int_bits preVal postVal pEnd pNextStart seconds.
Proof.
  intros H0 Hlt. rewrite transition_increasing by lia.
  unfold interpolate_float, to_int. rewrite H0, Z.add_0_l, Z.sub_0_r.
  rewrite wrap_wrap by lia. reflexivity.
Qed.

End Transition.

(** ** Rounding to nearest in single precision

    What [SFdiv] and [SFmul] compute on positive floats with 24-digit
    mantissas, away from underflow and overflow: the float nearest to the
    exact quotient or product. *)

Lemma loc_of_record_of_loc m l : loc_of_shr_record (shr_record_of_loc m l) = l.
Proof. destruct l as [|[| |]]; reflexivity. Qed.

Lemma shr_m_record_of_loc m l : shr_m (shr_record_of_loc m l) = m.
Proof. destruct l as [|[| |]]; reflexivity. Qed.

Lemma shr_1_located mrs N Dn :
  0 < Dn -> record_located mrs N Dn -> record_located (shr_1 mrs) N (2 * Dn).
Proof.
  intros HD [Hm Hl]. destruct mrs as [m r s].
  unfold record_located.
  destruct m as [|p|p]; [| |cbn in Hm; lia].
  - destruct r, s; cbn [shr_1 shr_m shr_r shr_s loc_of_shr_record located orb] in *; lia.
  - destruct p as [p|p|]; destruct r, s;
      cbn [shr_1 shr_m shr_r shr_s loc_of_shr_record located orb] in *;
      try (assert (Hp := Pos2Z.inj_xI p)); try (assert (Hp := Pos2Z.inj_xO p));
      lia.
Qed.

Lemma iter_shr_1_located p : forall mrs N Dn,
  0 < Dn -> record_located mrs N Dn ->
  record_located (SpecFloat.iter_pos shr_1 p mrs) N (2 ^ Z.pos p * Dn).
Proof.
  induction p as [p IH|p IH|]; intros mrs N Dn HD Hl.
  - cbn [SpecFloat.iter_pos].
    replace (2 ^ Z.pos p~1 * Dn) with (2 ^ Z.pos p * (2 ^ Z.pos p * (2 * Dn))).
    + assert (0 < 2 ^ Z.pos p) by (apply Z.pow_pos_nonneg; lia).
      apply IH; [nia|]. apply IH; [lia|]. apply shr_1_located; assumption.
    + replace (Z.pos p~1) with (Z.pos p + Z.pos p + 1) by lia.
      rewrite !Z.pow_add_r by lia. change (2 ^ 1) with 2. ring.
  - cbn [SpecFloat.iter_pos].
    replace (2 ^ Z.pos p~0 * Dn) with (2 ^ Z.pos p * (2 ^ Z.pos p * Dn)).
    + assert (0 < 2 ^ Z.pos p) by (apply Z.pow_pos_nonneg; lia).
      apply IH; [nia|]. apply IH; [lia|]. assumption.
    + replace (Z.pos p~0) with (Z.pos p + Z.pos p) by lia.
      rewrite !Z.pow_add_r by lia. ring.
  - cbn [SpecFloat.iter_pos]. change (2 ^ 1) with 2. apply shr_1_located; assumption.
Qed.

(** Weak bounds that every location gives. *)
Lemma located_bounds m l N Dn :
  0 < Dn -> located m l N Dn -> m * Dn <= N < (m + 1) * Dn.
Proof. intros HD. destruct l as [|[| |]]; cbn [located]; lia. Qed.

Lemma digits2_size p : digits2_pos p = Pos.size p.
Proof. induction p; simpl; congruence. Qed.

Lemma digits_bounds p :
  2 ^ (Z.pos (digits2_pos p) - 1) <= Z.pos p < 2 ^ Z.pos (digits2_pos p).
Proof.
  rewrite digits2_size. split.
  - pose proof (Pos.size_le p) as H.
    assert (Hs : Z.pos (2 ^ Pos.size p) <= Z.pos p~0) by exact H.
    rewrite Pos2Z.inj_pow in Hs. change (Z.pos p~0) with (2 * Z.pos p) in Hs.
    replace (Z.pos (Pos.size p)) with (Z.succ (Z.pos (Pos.size p) - 1)) in Hs by lia.
    rewrite Z.pow_succ_r in Hs by lia. lia.
  - pose proof (Pos.size_gt p) as H.
    assert (Hs : Z.pos p < Z.pos (2 ^ Pos.size p)) by exact H.
    rewrite Pos2Z.inj_pow in Hs. exact Hs.
Qed.

(** The number of digits is determined by the bounds. *)
Lemma digits_unique p d :
  2 ^ (d - 1) <= Z.pos p < 2 ^ d -> Z.pos (digits2_pos p) = d.
Proof.
  intros [Hlo Hhi]. pose proof (digits_bounds p) as [Hlo' Hhi'].
  assert (0 < d).
  { destruct (Z_lt_le_dec 0 d); [assumption|].
    assert (2 ^ d <= 2 ^ 0) by (destruct (Z_lt_le_dec d 0);
      [rewrite Z.pow_neg_r by lia; simpl; lia | apply Z.pow_le_mono_r; lia]).
    simpl in *. lia. }
  destruct (Z_lt_le_dec (Z.pos (digits2_pos p)) d) as [Hlt|Hge].
  - assert (2 ^ Z.pos (digits2_pos p) <= 2 ^ (d - 1)) by (apply Z.pow_le_mono_r; lia). lia.
  - destruct (Z_lt_le_dec d (Z.pos (digits2_pos p))) as [Hlt|Hge']; [|lia].
    assert (2 ^ d <= 2 ^ (Z.pos (digits2_pos p) - 1)) by (apply Z.pow_le_mono_r; lia). lia.
Qed.

Lemma fexp_normal x : -149 <= x - 24 -> fexp prec emax x = x - 24.
Proof. intros H. unfold fexp, emin, prec, emax. lia. Qed.

(** Cancel a positive factor. *)
Lemma mul_lt_cancel a b c : 0 < c -> a * c < b * c -> a < b.
Proof. intros Hc H. nia. Qed.

Lemma shr_fexp_normal p e l N Dn :
  let D := Z.pos (digits2_pos p) in
  24 <= D -> -149 <= D + e - 24 -> 0 < Dn -> located (Z.pos p) l N Dn ->
  exists mrs,
    shr_fexp prec emax (Z.pos p) e l = (mrs, e + (D - 24)) /\
    record_located mrs N (2 ^ (D - 24) * Dn) /\
    2 ^ 23 <= shr_m mrs < 2 ^ 24 /\
    (D = 24 -> mrs = shr_record_of_loc (Z.pos p) l).
Proof.
  intros D HD Hn HDn Hl.
  assert (Hrec : record_located (shr_record_of_loc (Z.pos p) l) N Dn).
  { unfold record_located. rewrite shr_m_record_of_loc, loc_of_record_of_loc.
    split; [lia | exact Hl]. }
  unfold shr_fexp. cbn [Zdigits2]. fold D.
  rewrite fexp_normal by lia.
  replace (D + e - 24 - e) with (D - 24) by lia.
  pose proof (digits_bounds p) as Hp. fold D in Hp.
  destruct (D - 24) as [|n|n] eqn:Hd; [| |lia].
  - exists (shr_record_of_loc (Z.pos p) l). cbn [shr].
    split; [f_equal; lia|]. split.
    + change (2 ^ 0) with 1. rewrite Z.mul_1_l. exact Hrec.
    + rewrite shr_m_record_of_loc. assert (D = 24) by lia.
      split; [|reflexivity]. replace (D - 1) with 23 in Hp by lia.
      replace D with 24 in Hp by lia. exact Hp.
  - exists (SpecFloat.iter_pos shr_1 n (shr_record_of_loc (Z.pos p) l)). cbn [shr].
    split; [reflexivity|].
    pose proof (iter_shr_1_located n _ N Dn HDn Hrec) as Hit.
    split; [exact Hit|]. split; [|lia].
    destruct Hit as [Hm0 Hloc].
    assert (Hpow : 0 < 2 ^ Z.pos n) by (apply Z.pow_pos_nonneg; lia).
    apply located_bounds in Hloc; [|nia].
    apply located_bounds in Hl; [|lia].
    set (m' := shr_m (SpecFloat.iter_pos shr_1 n (shr_record_of_loc (Z.pos p) l))) in *.
    assert (HD1 : 2 ^ (D - 1) = 2 ^ 23 * 2 ^ Z.pos n).
    { replace (D - 1) with (23 + Z.pos n) by lia. apply Z.pow_add_r; lia. }
    assert (HD2 : 2 ^ D = 2 ^ 24 * 2 ^ Z.pos n).
    { replace D with (24 + Z.pos n) at 1 by lia. apply Z.pow_add_r; lia. }
    rewrite HD1, HD2 in Hp. split.
    + assert (2 ^ 23 * (2 ^ Z.pos n * Dn) < (m' + 1) * (2 ^ Z.pos n * Dn)) by nia.
      assert (2 ^ 23 < m' + 1) by (eapply mul_lt_cancel; [|eassumption]; nia). lia.
    + assert (m' * (2 ^ Z.pos n * Dn) < 2 ^ 24 * (2 ^ Z.pos n * Dn)) by nia.
      eapply mul_lt_cancel; [|eassumption]. nia.
Qed.

Lemma rne_located m l N Dn :
  0 < Dn -> located m l N Dn ->
  let M := round_nearest_even m l in
  (M = m \/ M = m + 1) /\
  2 * M * Dn - Dn <= 2 * N <= 2 * M * Dn + Dn /\
  (l = loc_Exact -> M = m).
Proof.
  intros HD Hl. destruct l as [|[| |]]; cbn [located round_nearest_even] in *.
  - split; [left; reflexivity|]. split; [nia | reflexivity].
  - destruct (Z.even m); (split; [auto|]); (split; [nia | discriminate]).
  - split; [left; reflexivity|]. split; [nia | discriminate].
  - split; [right; reflexivity|]. split; [nia | discriminate].
Qed.

Lemma binary_round_aux_spec s p e l N Dn :
  let D := Z.pos (digits2_pos p) in
  24 <= D -> -149 <= D + e - 24 -> D + e <= 127 -> 0 < Dn ->
  located (Z.pos p) l N Dn ->
  exists M E,
    binary_round_aux prec emax s (Z.pos p) e l = S754_finite s M E /\
    2 ^ 23 <= Z.pos M < 2 ^ 24 /\
    e + (D - 24) <= E <= e + (D - 24) + 1 /\
    (let V := 2 ^ (E - e) * Dn in
     2 * Z.pos M * V - V <= 2 * N <= 2 * Z.pos M * V + V /\
     (Z.pos M = 2 ^ 23 -> 4 * Z.pos M * V - V <= 4 * N)) /\
    (l = loc_Exact -> D = 24 -> M = p /\ E = e).
Proof.
  intros D HD Hn Hx HDn Hl.
  destruct (shr_fexp_normal p e l N Dn HD Hn HDn Hl)
    as [mrs' [Hshr [[Hm0 Hloc] [Hm1 Hsame]]]]. fold D in Hshr, Hloc, Hsame.
  unfold binary_round_aux. rewrite Hshr.
  set (U := 2 ^ (D - 24) * Dn) in *.
  assert (HU : 0 < U).
  { unfold U. assert (0 < 2 ^ (D - 24)) by (apply Z.pow_pos_nonneg; lia). nia. }
  destruct (rne_located _ _ N U HU Hloc) as [HM [Hhalf Hex]].
  pose proof (located_bounds _ _ _ _ HU Hloc) as Hb.
  set (M1 := round_nearest_even (shr_m mrs') (loc_of_shr_record mrs')) in *.
  set (m1 := shr_m mrs') in *.
  change (2 ^ 23) with 8388608 in *. change (2 ^ 24) with 16777216 in *.
  destruct (Z_lt_le_dec M1 16777216) as [Hlt|Hge].
  - (* the rounded mantissa still has 24 digits *)
    assert (HM1 : 8388608 <= M1 < 16777216) by lia.
    destruct M1 as [|pm|pm] eqn:HeqM; try lia.
    assert (Hd : Z.pos (digits2_pos pm) = 24) by (apply digits_unique; simpl; lia).
    destruct (shr_fexp_normal pm (e + (D - 24)) loc_Exact (Z.pos pm) 1)
      as [mrs'' [Hshr2 [_ [_ Hsame2]]]]; rewrite ?Hd; try lia.
    { cbn [located]. lia. }
    rewrite Hd in Hshr2. rewrite Hshr2. rewrite (Hsame2 Hd). cbn [shr_record_of_loc shr_m].
    replace (e + (D - 24) + (24 - 24) <=? emax - prec) with true
      by (symmetry; apply Z.leb_le; unfold emax, prec; lia).
    exists pm, (e + (D - 24)). split; [f_equal; lia|].
    split; [lia|]. split; [lia|]. split.
    + replace (e + (D - 24) - e) with (D - 24) by lia. fold U. cbv zeta.
      split; [lia|]. intros HM23. destruct HM as [HMe|HMe]; [|lia]. nia.
    + intros Hexact HD24. split; [|lia].
      specialize (Hsame HD24). subst l.
      assert (Hloc' : loc_of_shr_record mrs' = loc_Exact)
        by (rewrite Hsame; reflexivity).
      specialize (Hex Hloc'). unfold m1 in Hex. rewrite Hsame in Hex.
      cbn [shr_record_of_loc shr_m] in Hex. congruence.
  - (* the mantissa rounded up to 2^24: one more shift *)
    assert (HM1 : M1 = 16777216) by lia.
    rewrite HM1 in *.
    assert (Hd25 : Z.pos (digits2_pos 16777216) = 25) by reflexivity.
    destruct (shr_fexp_normal 16777216%positive (e + (D - 24)) loc_Exact 16777216 1)
      as [mrs'' [Hshr2 [[_ Hloc2] [Hm2 _]]]];
      [rewrite Hd25; lia | rewrite Hd25; lia | lia | cbn [located]; lia |].
    rewrite Hd25 in Hshr2, Hloc2.
    rewrite Hshr2.
    apply located_bounds in Hloc2; [|cbn; lia].
    change (2 ^ (25 - 24) * 1) with 2 in Hloc2.
    change (2 ^ 23) with 8388608 in *. change (2 ^ 24) with 16777216 in *.
    assert (Hm : shr_m mrs'' = 8388608) by lia.
    rewrite Hm.
    replace (e + (D - 24) + (25 - 24) <=? emax - prec) with true
      by (symmetry; apply Z.leb_le; unfold emax, prec; lia).
    exists 8388608%positive, (e + (D - 24) + 1). split; [f_equal; lia|].
    split; [lia|]. split; [lia|]. split.
    + replace (e + (D - 24) + 1 - e) with (D - 24 + 1) by lia.
      rewrite Z.pow_add_r by lia. change (2 ^ 1) with 2.
      replace (2 ^ (D - 24) * 2 * Dn) with (2 * U) by (unfold U; ring).
      cbv zeta. destruct HM as [HMe|HMe]; [lia|].
      split; [nia|]. intros _. nia.
    + intros Hexact HD24. exfalso.
      specialize (Hsame HD24). subst l.
      assert (Hloc' : loc_of_shr_record mrs' = loc_Exact)
        by (rewrite Hsame; reflexivity).
      specialize (Hex Hloc'). lia.
Qed.


Lemma iter_xO_pow p d : Z.pos (Pos.iter xO p d) = Z.pos p * 2 ^ Z.pos d.
Proof.
  change (Pos.iter xO p d) with (shift_pos d p).
  rewrite shift_pos_correct. rewrite Zpower_pos_nat, Zpower_nat_Z.
  rewrite positive_nat_Z. ring.
Qed.

(** A positive integer below 2^24 converts exactly, to a float whose
    mantissa has 24 digits. *)
Lemma of_Z_spec z :
  0 < z < 2 ^ 24 ->
  exists M E,
    of_Z z = S754_finite false M E /\
    2 ^ 23 <= Z.pos M < 2 ^ 24 /\ -23 <= E <= 0 /\
    Z.pos M = z * 2 ^ (- E).
Proof.
  intros Hz. destruct z as [|p|p]; try lia.
  unfold of_Z, binary_normalize, binary_round.
  pose proof (digits_bounds p) as Hp.
  set (Dp := Z.pos (digits2_pos p)) in *.
  assert (HDp : 1 <= Dp <= 24).
  { split; [unfold Dp; lia|].
    destruct (Z_lt_le_dec 24 Dp) as [Hgt|]; [|lia].
    assert (2 ^ 24 <= 2 ^ (Dp - 1)) by (apply Z.pow_le_mono_r; lia). lia. }
  rewrite Z.add_0_r. rewrite fexp_normal by lia.
  unfold shl_align. rewrite Z.sub_0_r.
  destruct (Dp - 24) as [|d|d] eqn:Hd; [| lia |].
  - assert (HD24 : Z.pos (digits2_pos p) = 24) by (fold Dp; lia).
    destruct (binary_round_aux_spec false p 0 loc_Exact (Z.pos p) 1)
      as [M [E [Heq [HM [_ [_ Hex]]]]]]; rewrite ?HD24; try lia.
    { cbn [located]. lia. }
    destruct (Hex eq_refl HD24) as [-> ->].
    exists p, 0. split; [exact Heq|]. split; [exact HM|]. split; [lia|].
    change (2 ^ (- 0)) with 1. lia.
  - pose proof (iter_xO_pow p d) as Hmz.
    set (mz := Pos.iter xO p d) in *.
    assert (Hpow : 2 ^ 24 = 2 ^ Dp * 2 ^ Z.pos d).
    { rewrite <- Z.pow_add_r by lia. f_equal. lia. }
    assert (Hpow' : 2 ^ 23 = 2 ^ (Dp - 1) * 2 ^ Z.pos d).
    { rewrite <- Z.pow_add_r by lia. f_equal. lia. }
    assert (H2d : 0 < 2 ^ Z.pos d) by (apply Z.pow_pos_nonneg; lia).
    assert (Hmzb : 2 ^ 23 <= Z.pos mz < 2 ^ 24) by (rewrite Hmz, Hpow, Hpow'; nia).
    assert (HD24 : Z.pos (digits2_pos mz) = 24) by (apply digits_unique; exact Hmzb).
    destruct (binary_round_aux_spec false mz (Z.neg d) loc_Exact (Z.pos mz) 1)
      as [M [E [Heq [HM [_ [_ Hex]]]]]]; rewrite ?HD24; try lia.
    { cbn [located]. lia. }
    destruct (Hex eq_refl HD24) as [-> ->].
    exists mz, (Z.neg d). split; [exact Heq|]. split; [exact Hmzb|]. split; [lia|].
    rewrite Hmz. reflexivity.
Qed.

Lemma new_location_located den q r :
  0 < den -> 0 <= r < den ->
  located q (new_location den r) (q * den + r) den.
Proof.
  intros Hd Hr. unfold new_location, new_location_even, new_location_odd.
  destruct (Z.even den) eqn:Hev.
  - destruct (Z.eqb_spec r 0) as [->|Hne]; cbn [located]; [lia|].
    destruct (Z.compare_spec (2 * r) den); cbn [located]; lia.
  - destruct (Z.eqb_spec r 0) as [->|Hne]; cbn [located]; [lia|].
    assert (Hodd : Z.odd den = true) by (rewrite <- Z.negb_even, Hev; reflexivity).
    apply Z.odd_spec in Hodd as [c Hc].
    destruct (Z.compare_spec (2 * r + 1) den); cbn [located]; lia.
Qed.


Lemma digits_24 m : 2 ^ 23 <= Z.pos m < 2 ^ 24 -> Z.pos (digits2_pos m) = 24.
Proof. intros H. apply digits_unique. exact H. Qed.

(** The quotient of two positive floats with 24-digit mantissas. *)
Lemma div_spec mx ex my ey :
  2 ^ 23 <= Z.pos mx < 2 ^ 24 -> 2 ^ 23 <= Z.pos my < 2 ^ 24 ->
  -100 <= ex - ey <= 100 ->
  exists M E,
    div (S754_finite false mx ex) (S754_finite false my ey) = S754_finite false M E /\
    2 ^ 23 <= Z.pos M < 2 ^ 24 /\
    ex - ey - 24 <= E <= ex - ey - 22 /\
    let V := 2 ^ (E - (ex - ey - 24)) * Z.pos my in
    2 * Z.pos M * V - V <= 2 * (Z.pos mx * 2 ^ 24) <= 2 * Z.pos M * V + V /\
    (Z.pos M = 2 ^ 23 -> 4 * Z.pos M * V - V <= 4 * (Z.pos mx * 2 ^ 24)).
Proof.
  intros Hx Hy He. unfold div, SFdiv, SFdiv_core_binary.
  cbn [Zdigits2 xorb]. rewrite (digits_24 mx Hx), (digits_24 my Hy).
  replace (24 + ex - (24 + ey)) with (ex - ey) by lia.
  rewrite fexp_normal by lia.
  replace (Z.min (ex - ey - 24) (ex - ey)) with (ex - ey - 24) by lia.
  replace (ex - ey - (ex - ey - 24)) with 24 by lia.
  cbv iota. rewrite Z.shiftl_mul_pow2 by lia.
  change (2 ^ 23) with 8388608 in *. change (2 ^ 24) with 16777216 in *.
  pose proof (Z_div_mod (Z.pos mx * 16777216) (Z.pos my) ltac:(lia)) as Hdm.
  destruct (Z.div_eucl (Z.pos mx * 16777216) (Z.pos my)) as [q r].
  destruct Hdm as [Hq Hr].
  assert (Hqb : 8388608 <= q < 33554432) by nia.
  destruct q as [|pq|pq]; try lia.
  assert (Hloc : located (Z.pos pq) (new_location (Z.pos my) r)
                   (Z.pos mx * 16777216) (Z.pos my)).
  { rewrite Hq. replace (Z.pos my * Z.pos pq + r) with (Z.pos pq * Z.pos my + r) by ring.
    apply new_location_located; lia. }
  pose proof (digits_bounds pq) as Hdb.
  set (D := Z.pos (digits2_pos pq)) in *.
  assert (HD : 24 <= D <= 25).
  { split.
    - destruct (Z_lt_le_dec D 24) as [Hlt|]; [|lia].
      assert (2 ^ D <= 2 ^ 23) by (apply Z.pow_le_mono_r; unfold D; lia).
      change (2 ^ 23) with 8388608 in *. lia.
    - destruct (Z_lt_le_dec 25 D) as [Hlt|]; [|lia].
      assert (2 ^ 25 <= 2 ^ (D - 1)) by (apply Z.pow_le_mono_r; lia).
      change (2 ^ 25) with 33554432 in *. lia. }
  destruct (binary_round_aux_spec false pq (ex - ey - 24)
              (new_location (Z.pos my) r) (Z.pos mx * 16777216) (Z.pos my))
    as [M [E [Heq [HM [HE [Hv _]]]]]]; fold D; try lia.
  { exact Hloc. }
  fold D in HE. exists M, E. split; [exact Heq|].
  change (2 ^ 23) with 8388608 in *. change (2 ^ 24) with 16777216 in *.
  split; [exact HM|]. split; [lia|]. exact Hv.
Qed.

(** The product of two positive floats with 24-digit mantissas. *)
Lemma mul_spec mx ex my ey :
  2 ^ 23 <= Z.pos mx < 2 ^ 24 -> 2 ^ 23 <= Z.pos my < 2 ^ 24 ->
  -100 <= ex + ey <= 50 ->
  exists M E,
    mul (S754_finite false mx ex) (S754_finite false my ey) = S754_finite false M E /\
    2 ^ 23 <= Z.pos M < 2 ^ 24 /\
    ex + ey + 23 <= E <= ex + ey + 25 /\
    let V := 2 ^ (E - (ex + ey)) in
    2 * Z.pos M * V - V <= 2 * (Z.pos mx * Z.pos my) <= 2 * Z.pos M * V + V /\
    (Z.pos M = 2 ^ 23 -> 4 * Z.pos M * V - V <= 4 * (Z.pos mx * Z.pos my)).
Proof.
  intros Hx Hy He. unfold mul, SFmul. cbn [xorb].
  change (2 ^ 23) with 8388608 in *. change (2 ^ 24) with 16777216 in *.
  assert (HP : 70368744177664 <= Z.pos (mx * my) < 281474976710656)
    by (rewrite Pos2Z.inj_mul; nia).
  pose proof (digits_bounds (mx * my)) as Hdb.
  set (D := Z.pos (digits2_pos (mx * my))) in *.
  assert (HD : 47 <= D <= 48).
  { split.
    - destruct (Z_lt_le_dec D 47) as [Hlt|]; [|lia].
      assert (2 ^ D <= 2 ^ 46) by (apply Z.pow_le_mono_r; unfold D; lia).
      change (2 ^ 46) with 70368744177664 in *. lia.
    - destruct (Z_lt_le_dec 48 D) as [Hlt|]; [|lia].
      assert (2 ^ 48 <= 2 ^ (D - 1)) by (apply Z.pow_le_mono_r; lia).
      change (2 ^ 48) with 281474976710656 in *. lia. }
  destruct (binary_round_aux_spec false (mx * my) (ex + ey) loc_Exact
              (Z.pos (mx * my)) 1)
    as [M [E [Heq [HM [HE [Hv _]]]]]]; fold D; try lia.
  { cbn [located]. lia. }
  fold D in HE. exists M, E. split; [exact Heq|].
  change (2 ^ 23) with 8388608 in *. change (2 ^ 24) with 16777216 in *.
  split; [exact HM|]. split; [lia|].
  rewrite Z.mul_1_r in Hv. rewrite Pos2Z.inj_mul in Hv. exact Hv.
Qed.

Section Rounding.
Local Open Scope R_scope.


Lemma pow2_pos e : 0 < pow2 e.
Proof. unfold pow2. apply powerRZ_lt. lra. Qed.

Lemma pow2_add a b : pow2 (a + b) = pow2 a * pow2 b.
Proof. unfold pow2. apply powerRZ_add. lra. Qed.

Lemma pow2_IZR n : (0 <= n)%Z -> IZR (2 ^ n) = pow2 n.
Proof.
  intros Hn. unfold pow2. destruct n as [|p|p]; [reflexivity| |lia].
  change (2 ^ Z.pos p)%Z with (Z.pow_pos 2 p). apply Zpower_pos_powerRZ.
Qed.

Lemma pow2_ge_2 n : (1 <= n)%Z -> 2 <= pow2 n.
Proof.
  intros Hn. rewrite <- pow2_IZR by lia. apply IZR_le.
  change 2%Z with (2 ^ 1)%Z at 1. apply Z.pow_le_mono_r; lia.
Qed.

Lemma pow2_lt a b : (a < b)%Z -> 2 * pow2 a <= pow2 b.
Proof.
  intros H. replace b with (a + (b - a))%Z by lia. rewrite pow2_add.
  pose proof (pow2_ge_2 (b - a) ltac:(lia)). pose proof (pow2_pos a). nra.
Qed.


Lemma rounded_of_located M E e N Dn :
  (2 ^ 23 <= Z.pos M < 2 ^ 24)%Z -> (e <= E)%Z -> (0 < Dn)%Z ->
  (let V := 2 ^ (E - e) * Dn in
   2 * Z.pos M * V - V <= 2 * N <= 2 * Z.pos M * V + V /\
   (Z.pos M = 2 ^ 23 -> 4 * Z.pos M * V - V <= 4 * N))%Z ->
  rounded (IZR N / IZR Dn * pow2 e) M E.
Proof.
  intros HM HE HD [[Hlo Hhi] Hq]. split; [exact HM|].
  assert (HE' : pow2 E = pow2 e * pow2 (E - e)).
  { rewrite <- pow2_add. f_equal. lia. }
  pose proof (pow2_pos e) as Ha. pose proof (pow2_pos (E - e)) as Hb.
  assert (HDn : 0 < IZR Dn) by (apply IZR_lt; exact HD).
  apply IZR_le in Hlo, Hhi.
  rewrite minus_IZR, !mult_IZR, pow2_IZR in Hlo by lia.
  rewrite plus_IZR, !mult_IZR, pow2_IZR in Hhi by lia.
  unfold val. rewrite HE'.
  set (m := IZR (Z.pos M)) in *. set (a := pow2 e) in *. set (b := pow2 (E - e)) in *.
  set (n := IZR N) in *. set (d := IZR Dn) in *.
  assert (Hnd : n = (n / d) * d) by (field; lra).
  set (x := n / d) in *.
  assert (H1 : 2 * m * b - b <= 2 * x).
  { apply Rmult_le_reg_r with d; [exact HDn|]. nra. }
  assert (H2 : 2 * x <= 2 * m * b + b).
  { apply Rmult_le_reg_r with d; [exact HDn|]. nra. }
  split.
  - split; nra.
  - intros H23. specialize (Hq H23). apply IZR_le in Hq.
    rewrite minus_IZR, !mult_IZR, pow2_IZR in Hq by lia.
    fold m b n d in Hq.
    assert (H3 : 4 * m * b - b <= 4 * x).
    { apply Rmult_le_reg_r with d; [exact HDn|]. nra. }
    nra.
Qed.


Lemma val_pos M E : 0 < val M E.
Proof.
  unfold val. apply Rmult_lt_0_compat; [apply IZR_lt; lia | apply pow2_pos].
Qed.

Lemma div_rounded mx ex my ey :
  (2 ^ 23 <= Z.pos mx < 2 ^ 24)%Z -> (2 ^ 23 <= Z.pos my < 2 ^ 24)%Z ->
  (-100 <= ex - ey <= 100)%Z ->
  exists M E,
    div (S754_finite false mx ex) (S754_finite false my ey) = S754_finite false M E /\
    (ex - ey - 24 <= E <= ex - ey - 22)%Z /\
    rounded (val mx ex / val my ey) M E.
Proof.
  intros Hx Hy He.
  destruct (div_spec mx ex my ey Hx Hy He) as [M [E [Heq [HM [HE Hv]]]]].
  exists M, E. split; [exact Heq|]. split; [exact HE|].
  replace (val mx ex / val my ey)
    with (IZR (Z.pos mx * 2 ^ 24) / IZR (Z.pos my) * pow2 (ex - ey - 24)).
  - apply rounded_of_located; [exact HM | lia | lia | exact Hv].
  - unfold val. rewrite mult_IZR, pow2_IZR by lia.
    replace (pow2 ex) with (pow2 (ex - ey - 24) * pow2 ey * pow2 24)
      by (rewrite <- !pow2_add; f_equal; lia).
    pose proof (pow2_pos ey). pose proof (pow2_pos 24).
    assert (0 < IZR (Z.pos my)) by (apply IZR_lt; lia).
    field. lra.
Qed.

Lemma mul_rounded mx ex my ey :
  (2 ^ 23 <= Z.pos mx < 2 ^ 24)%Z -> (2 ^ 23 <= Z.pos my < 2 ^ 24)%Z ->
  (-100 <= ex + ey <= 50)%Z ->
  exists M E,
    mul (S754_finite false mx ex) (S754_finite false my ey) = S754_finite false M E /\
    rounded (val mx ex * val my ey) M E.
Proof.
  intros Hx Hy He.
  destruct (mul_spec mx ex my ey Hx Hy He) as [M [E [Heq [HM [HE Hv]]]]].
  exists M, E. split; [exact Heq|].
  replace (val mx ex * val my ey)
    with (IZR (Z.pos mx * Z.pos my) / IZR 1 * pow2 (ex + ey)).
  - apply rounded_of_located; [exact HM | lia | lia |].
    rewrite Z.mul_1_r. exact Hv.
  - unfold val. rewrite mult_IZR, pow2_add. field.
Qed.

(** Relative error: within 2^-24 of the result. *)
Lemma rounded_rel v M E :
  rounded v M E ->
  val M E * (1 - / 16777216) <= v <= val M E * (1 + / 16777216).
Proof.
  intros [HM [Habs _]].
  assert (Hm : 8388608 <= IZR (Z.pos M)) by (apply IZR_le; lia).
  pose proof (pow2_pos E) as HE. unfold val in *.
  assert (pow2 E / 2 <= IZR (Z.pos M) * pow2 E * / 16777216) by nra.
  lra.
Qed.

(** Rounding to nearest is increasing. *)
Lemma rounded_mono v1 M1 E1 v2 M2 E2 :
  v1 < v2 -> rounded v1 M1 E1 -> rounded v2 M2 E2 -> val M1 E1 <= val M2 E2.
Proof.
  intros Hv [HM1 [Ha1 Hq1]] [HM2 [Ha2 _]].
  change (2 ^ 23)%Z with 8388608%Z in *. change (2 ^ 24)%Z with 16777216%Z in *.
  assert (Hm1 : 8388608 <= IZR (Z.pos M1) <= 16777215)
    by (split; apply IZR_le; lia).
  assert (Hm2 : 8388608 <= IZR (Z.pos M2) <= 16777215)
    by (split; apply IZR_le; lia).
  pose proof (pow2_pos E1) as HE1. pose proof (pow2_pos E2) as HE2.
  unfold val in *.
  destruct (Z.lt_trichotomy E1 E2) as [Hlt|[Heq|Hgt]].
  - pose proof (pow2_lt E1 E2 Hlt). nra.
  - subst E2. destruct (Z_le_gt_dec (Z.pos M1) (Z.pos M2)) as [Hle|Hgt].
    + apply IZR_le in Hle. nra.
    + assert (Hge : (Z.pos M2 + 1 <= Z.pos M1)%Z) by lia.
      apply IZR_le in Hge. rewrite plus_IZR in Hge. nra.
  - pose proof (pow2_lt E2 E1 ltac:(lia)).
    destruct (Z.eq_dec (Z.pos M1) 8388608%Z) as [H23|Hne].
    + specialize (Hq1 H23). rewrite H23 in *. nra.
    + assert (Hge : (8388609 <= Z.pos M1)%Z) by lia.
      apply IZR_le in Hge. nra.
Qed.


(** [trunc] is the integer part. *)
Lemma trunc_floor M E :
  IZR (trunc (S754_finite false M E)) <= val M E < IZR (trunc (S754_finite false M E)) + 1.
Proof.
  unfold trunc, val. destruct E as [|p|p].
  - unfold pow2. simpl powerRZ. lra.
  - rewrite mult_IZR, pow2_IZR by lia. lra.
  - assert (Hp : (0 < 2 ^ Z.pos p)%Z) by (apply Z.pow_pos_nonneg; lia).
    pose proof (Z.div_mod (Z.pos M) (2 ^ Z.pos p) ltac:(lia)) as Hdm.
    pose proof (Z.mod_pos_bound (Z.pos M) (2 ^ Z.pos p) Hp) as Hmb.
    set (q := (Z.pos M / 2 ^ Z.pos p)%Z) in *.
    set (r := (Z.pos M mod 2 ^ Z.pos p)%Z) in *.
    assert (Hpow : pow2 (Z.neg p) * IZR (2 ^ Z.pos p) = 1).
    { rewrite pow2_IZR by lia. rewrite <- pow2_add.
      replace (Z.neg p + Z.pos p)%Z with 0%Z by lia. reflexivity. }
    assert (HM : IZR (Z.pos M) = IZR (2 ^ Z.pos p) * IZR q + IZR r)
      by (rewrite <- mult_IZR, <- plus_IZR; f_equal; exact Hdm).
    assert (Hr : 0 <= IZR r < IZR (2 ^ Z.pos p))
      by (split; [apply IZR_le | apply IZR_lt]; lia).
    pose proof (pow2_pos (Z.neg p)) as Hpp.
    set (t := IZR (2 ^ Z.pos p)) in *. set (u := pow2 (Z.neg p)) in *.
    set (rr := IZR r) in *. set (qq := IZR q) in *.
    assert (H0 : 0 <= rr * u) by (apply Rmult_le_pos; lra).
    assert (H1 : rr * u < t * u) by (apply Rmult_lt_compat_r; lra).
    rewrite HM.
    replace ((t * qq + rr) * u) with (qq * (u * t) + rr * u) by ring.
    rewrite Hpow. lra.
Qed.

Lemma trunc_mono M1 E1 M2 E2 :
  val M1 E1 <= val M2 E2 ->
  (trunc (S754_finite false M1 E1) <= trunc (S754_finite false M2 E2))%Z.
Proof.
  intros H. pose proof (trunc_floor M1 E1). pose proof (trunc_floor M2 E2).
  assert (IZR (trunc (S754_finite false M1 E1))
          < IZR (trunc (S754_finite false M2 E2) + 1)) by (rewrite plus_IZR; lra).
  apply lt_IZR in H2. lia.
Qed.


Lemma of_Z_val z :
  (0 < z < 2 ^ 24)%Z ->
  exists M E,
    of_Z z = S754_finite false M E /\
    (2 ^ 23 <= Z.pos M < 2 ^ 24)%Z /\ (-23 <= E <= 0)%Z /\
    val M E = IZR z.
Proof.
  intros Hz. destruct (of_Z_spec z Hz) as [M [E [Heq [HM [HE Hv]]]]].
  exists M, E. split; [exact Heq|]. split; [exact HM|]. split; [exact HE|].
  unfold val. rewrite Hv, mult_IZR, pow2_IZR by lia.
  rewrite Rmult_assoc, <- pow2_add.
  replace (- E + E)%Z with 0%Z by lia. unfold pow2. simpl. ring.
Qed.

(** The two float operations of a fade: the quotient [d / g], then the
    product by [e]. *)
Lemma fade_floats e d g :
  (0 < e < 2 ^ 24)%Z -> (0 < d < 2 ^ 24)%Z -> (0 < g < 2 ^ 24)%Z ->
  exists Mq Eq Mx Ex,
    div (of_Z d) (of_Z g) = S754_finite false Mq Eq /\
    rounded (IZR d / IZR g) Mq Eq /\
    mul (of_Z e) (div (of_Z d) (of_Z g)) = S754_finite false Mx Ex /\
    rounded (IZR e * val Mq Eq) Mx Ex.
Proof.
  intros He Hd Hg.
  destruct (of_Z_val e He) as [me [ee [Hee [Hme [Hee' Hve]]]]].
  destruct (of_Z_val d Hd) as [md [ed [Hed [Hmd [Hed' Hvd]]]]].
  destruct (of_Z_val g Hg) as [mg [eg [Heg [Hmg [Heg' Hvg]]]]].
  destruct (div_rounded md ed mg eg Hmd Hmg ltac:(lia)) as [Mq [Eq [Hq [HEq Hrq]]]].
  destruct Hrq as [HMq Hrq'].
  destruct (mul_rounded me ee Mq Eq Hme HMq ltac:(lia)) as [Mx [Ex [Hx Hrx]]].
  exists Mq, Eq, Mx, Ex. split; [|split; [|split]].
  - rewrite Hed, Heg. exact Hq.
  - rewrite <- Hvd, <- Hvg. split; assumption.
  - rewrite Hee, Hed, Heg, Hq. exact Hx.
  - rewrite <- Hve. exact Hrx.
Qed.

Lemma IZR_pos z : (0 < z)%Z -> 0 < IZR z.
Proof. intros H. apply (IZR_lt 0). exact H. Qed.

(** The truncated product is between 0 and [d] when [e < g]. *)
Lemma fade_step_range e d g :
  (0 < e < g)%Z -> (g < 2 ^ 24)%Z -> (0 < d <= 255)%Z ->
  (0 <= trunc (mul (of_Z e) (div (of_Z d) (of_Z g))) <= d)%Z.
Proof.
  intros He Hg Hd.
  destruct (fade_floats e d g) as [Mq [Eq [Mx [Ex [_ [Hq [Hx Hrx]]]]]]];
    try (change (2 ^ 24)%Z with 16777216%Z in *; lia).
  rewrite Hx. pose proof (trunc_floor Mx Ex) as [Hlo Hhi].
  pose proof (val_pos Mx Ex) as Hxp. pose proof (val_pos Mq Eq) as Hqp.
  apply rounded_rel in Hq, Hrx.
  set (T := trunc (S754_finite false Mx Ex)) in *.
  set (x := val Mx Ex) in *. set (q := val Mq Eq) in *.
  assert (Hdr : 1 <= IZR d <= 255) by (split; apply IZR_le; lia).
  assert (Her : 1 <= IZR e) by (apply IZR_le; lia).
  assert (Heg : IZR e + 1 <= IZR g) by (rewrite <- plus_IZR; apply IZR_le; lia).
  set (dd := IZR d) in *. set (ee := IZR e) in *. set (gg := IZR g) in *.
  destruct Hq as [Hq1 _]. destruct Hrx as [Hx1 _].
  assert (Hqg : q * gg * (1 - / 16777216) <= dd).
  { assert (q * (1 - / 16777216) * gg <= dd / gg * gg)
      by (apply Rmult_le_compat_r; lra).
    replace (dd / gg * gg) with dd in H by (field; lra). lra. }
  assert (Hxg : x * gg * (1 - / 16777216) * (1 - / 16777216) <= ee * dd).
  { assert (x * (1 - / 16777216) * (gg * (1 - / 16777216))
            <= ee * q * (gg * (1 - / 16777216)))
      by (apply Rmult_le_compat_r; lra).
    assert (ee * (q * gg * (1 - / 16777216)) <= ee * dd)
      by (apply Rmult_le_compat_l; lra).
    lra. }
  assert (Hx255 : x < dd + 1).
  { apply Rmult_lt_reg_r with (gg * (1 - / 16777216) * (1 - / 16777216)); [nra|].
    assert (ee * dd <= (gg - 1) * dd) by (apply Rmult_le_compat_r; lra).
    nra. }
  split.
  - assert (-1 < IZR T) by lra. apply (lt_IZR (-1)) in H. lia.
  - assert (IZR T < IZR (d + 1)) by (rewrite plus_IZR; fold dd; lra).
    apply lt_IZR in H. lia.
Qed.

(** The truncated product does not decrease with the elapsed time. *)
Lemma fade_step_mono e1 e2 d g :
  (0 < e1 <= e2)%Z -> (e2 < 2 ^ 24)%Z -> (0 < d < 2 ^ 24)%Z -> (0 < g < 2 ^ 24)%Z ->
  (trunc (mul (of_Z e1) (div (of_Z d) (of_Z g)))
   <= trunc (mul (of_Z e2) (div (of_Z d) (of_Z g))))%Z.
Proof.
  intros He1 He2 Hd Hg.
  destruct (Z.eq_dec e1 e2) as [->|Hne]; [lia|].
  destruct (fade_floats e1 d g) as [Mq [Eq [Mx1 [Ex1 [Hd1 [Hq1 [Hx1 Hrx1]]]]]]]; try lia.
  destruct (fade_floats e2 d g) as [Mq' [Eq' [Mx2 [Ex2 [Hd2 [_ [Hx2 Hrx2]]]]]]]; try lia.
  rewrite Hd1 in Hd2. inversion Hd2. subst Mq' Eq'.
  rewrite Hx1, Hx2. apply trunc_mono.
  apply (rounded_mono (IZR e1 * val Mq Eq) Mx1 Ex1 (IZR e2 * val Mq Eq) Mx2 Ex2);
    [|exact Hrx1 | exact Hrx2].
  apply Rmult_lt_compat_r; [apply val_pos | apply IZR_lt; lia].
Qed.

(** The truncated product is within one of the exact quotient [e * d / g]. *)
Lemma fade_step_near e d g :
  (0 < e < g)%Z -> (g < 2 ^ 24)%Z -> (0 < d <= 255)%Z ->
  (e * d / g - 1 <= trunc (mul (of_Z e) (div (of_Z d) (of_Z g))) <= e * d / g + 1)%Z.
Proof.
  intros He Hg Hd.
  destruct (fade_floats e d g) as [Mq [Eq [Mx [Ex [_ [Hq [Hx Hrx]]]]]]];
    try (change (2 ^ 24)%Z with 16777216%Z in *; lia).
  rewrite Hx. pose proof (trunc_floor Mx Ex) as [Hlo Hhi].
  pose proof (val_pos Mx Ex) as Hxp. pose proof (val_pos Mq Eq) as Hqp.
  apply rounded_rel in Hq, Hrx.
  set (T := trunc (S754_finite false Mx Ex)) in *.
  set (x := val Mx Ex) in *. set (q := val Mq Eq) in *.
  assert (Hdr : 1 <= IZR d <= 255) by (split; apply IZR_le; lia).
  assert (Her : 1 <= IZR e) by (apply IZR_le; lia).
  assert (Heg : IZR e + 1 <= IZR g) by (rewrite <- plus_IZR; apply IZR_le; lia).
  (* the exact quotient and its integer part *)
  pose proof (Z.div_mod (e * d) g ltac:(lia)) as Hdm.
  pose proof (Z.mod_pos_bound (e * d) g ltac:(lia)) as Hmb.
  set (Q := (e * d / g)%Z) in *. set (r := ((e * d) mod g)%Z) in *.
  assert (HQ : IZR e * IZR d = IZR g * IZR Q + IZR r)
    by (rewrite <- !mult_IZR, <- plus_IZR; f_equal; exact Hdm).
  assert (Hr : 0 <= IZR r /\ IZR r + 1 <= IZR g).
  { split; [apply IZR_le; lia|]. rewrite <- plus_IZR. apply IZR_le. lia. }
  set (dd := IZR d) in *. set (ee := IZR e) in *. set (gg := IZR g) in *.
  set (QQ := IZR Q) in *. set (rr := IZR r) in *.
  destruct Hq as [Hq1 Hq2]. destruct Hrx as [Hx1 Hx2].
  assert (Hqg1 : q * gg * (1 - / 16777216) <= dd).
  { assert (q * (1 - / 16777216) * gg <= dd / gg * gg)
      by (apply Rmult_le_compat_r; lra).
    replace (dd / gg * gg) with dd in H by (field; lra). lra. }
  assert (Hqg2 : dd <= q * gg * (1 + / 16777216)).
  { assert (dd / gg * gg <= q * (1 + / 16777216) * gg)
      by (apply Rmult_le_compat_r; lra).
    replace (dd / gg * gg) with dd in H by (field; lra). lra. }
  assert (Hxg1 : x * gg * (1 - / 16777216) * (1 - / 16777216) <= ee * dd).
  { assert (x * (1 - / 16777216) * (gg * (1 - / 16777216))
            <= ee * q * (gg * (1 - / 16777216)))
      by (apply Rmult_le_compat_r; lra).
    assert (ee * (q * gg * (1 - / 16777216)) <= ee * dd)
      by (apply Rmult_le_compat_l; lra).
    lra. }
  assert (Hxg2 : ee * dd <= x * gg * (1 + / 16777216) * (1 + / 16777216)).
  { assert (ee * q * (gg * (1 + / 16777216))
            <= x * (1 + / 16777216) * (gg * (1 + / 16777216)))
      by (apply Rmult_le_compat_r; lra).
    assert (ee * dd <= ee * (q * gg * (1 + / 16777216)))
      by (apply Rmult_le_compat_l; lra).
    lra. }
  assert (Hx256 : x < 256).
  { apply Rmult_lt_reg_r with (gg * (1 - / 16777216) * (1 - / 16777216)); [nra|].
    assert (ee * dd <= (gg - 1) * dd) by (apply Rmult_le_compat_r; lra).
    nra. }
  assert (Hxg : 0 < x * gg) by nra.
  (* x * g is within g of e * d *)
  assert (Hup : x * gg < ee * dd + gg) by nra.
  assert (Hdn : ee * dd < x * gg + gg) by nra.
  split.
  - assert (H : IZR (Q - 2) < IZR T).
    { rewrite minus_IZR. fold QQ.
      apply Rmult_lt_reg_r with gg; [lra|]. nra. }
    apply lt_IZR in H. lia.
  - assert (H : IZR T < IZR (Q + 2)).
    { rewrite plus_IZR. fold QQ.
      apply Rmult_lt_reg_r with gg; [lra|]. nra. }
    apply lt_IZR in H. lia.
Qed.

End Rounding.

(** ** Fades whose duration fits [int] *)

Section Fade.

Variable int_bits : Z.
Hypothesis int_bits_ge : 16 <= int_bits.

Variables preVal postVal pEnd pNextStart : Z.
Hypothesis preVal_range : 0 <= preVal <= 255.
Hypothesis postVal_range : 0 <= postVal <= 255.
Hypothesis pEnd_range : 0 <= pEnd.
Hypothesis pNextStart_range : pNextStart <= 86400.
Hypothesis gap_fits : pNextStart - pEnd < 2 ^ (int_bits - 1).

Local Abbreviation step seconds delta :=
  (trunc (mul (of_Z (seconds - pEnd)) (div (of_Z delta) (of_Z (pNextStart - pEnd))))).

Lemma step_range seconds delta :
  pEnd < seconds < pNextStart -> 0 < delta <= 255 -> 0 <= step seconds delta <= delta.
Proof.
  intros Hgap Hd. apply fade_step_range; [lia | | lia].
  change (2 ^ 24) with 16777216. lia.
Qed.

(** Going up, the sketch assigns the truncated product. *)
Lemma transition_up seconds :
  pEnd < seconds < pNextStart -> preVal < postVal ->
  transition int_bits preVal postVal pEnd pNextStart seconds
  = step seconds (postVal - preVal).
Proof.
  intros Hgap Hlt.
  rewrite (transition_increasing int_bits int_bits_ge preVal postVal pEnd pNextStart
             seconds) by lia.
  unfold to_int. apply wrap_int; [exact int_bits_ge|].
  pose proof (step_range seconds (postVal - preVal) Hgap ltac:(lia)). lia.
Qed.

(** Going down, the previous intensity less the truncated product. *)
Lemma transition_down seconds :
  pEnd < seconds < pNextStart -> postVal < preVal ->
  transition int_bits preVal postVal pEnd pNextStart seconds
  = preVal - step seconds (preVal - postVal).
Proof.
  intros Hgap Hlt.
  rewrite (transition_decreasing int_bits int_bits_ge preVal postVal pEnd pNextStart
             seconds) by lia.
  pose proof (step_range seconds (preVal - postVal) Hgap ltac:(lia)) as Hs.
  unfold to_int. rewrite (wrap_int int_bits (step _ _)) by lia.
  apply wrap_int; [exact int_bits_ge | lia].
Qed.

Lemma transition_level seconds :
  pEnd < seconds < pNextStart -> postVal = preVal ->
  transition int_bits preVal postVal pEnd pNextStart seconds = preVal.
Proof.
  intros Hgap Heq.
  rewrite (transition_decreasing int_bits int_bits_ge preVal postVal pEnd pNextStart
             seconds) by lia.
  replace (preVal - postVal) with 0 by lia.
  unfold to_int. rewrite trunc_mul_div_zero.
  rewrite (wrap_int int_bits 0) by lia. rewrite Z.sub_0_r.
  apply wrap_int; [exact int_bits_ge | lia].
Qed.

(** The value assigned in the gap is an intensity. *)
Lemma transition_range seconds :
  pEnd < seconds < pNextStart ->
  0 <= transition int_bits preVal postVal pEnd pNextStart seconds <= 255.
Proof.
  intros Hgap. destruct (Z.lt_trichotomy preVal postVal) as [Hlt|[Heq|Hgt]].
  - rewrite transition_up by assumption.
    pose proof (step_range seconds (postVal - preVal) Hgap ltac:(lia)). lia.
  - rewrite transition_level by (auto; lia). lia.
  - rewrite transition_down by assumption.
    pose proof (step_range seconds (preVal - postVal) Hgap ltac:(lia)). lia.
Qed.

(** The value assigned follows the direction of the fade. *)
Lemma transition_monotone t1 t2 :
  pEnd < t1 -> t1 <= t2 -> t2 < pNextStart ->
  (preVal < postVal ->
   transition int_bits preVal postVal pEnd pNextStart t1
   <= transition int_bits preVal postVal pEnd pNextStart t2) /\
  (postVal < preVal ->
   transition int_bits preVal postVal pEnd pNextStart t2
   <= transition int_bits preVal postVal pEnd pNextStart t1).
Proof.
  intros H1 H12 H2.
  assert (Hm : forall delta, 0 < delta <= 255 -> step t1 delta <= step t2 delta).
  { intros delta Hd. apply fade_step_mono; change (2 ^ 24) with 16777216; lia. }
  split; intros Hdir.
  - rewrite !transition_up by lia. apply Hm. lia.
  - rewrite !transition_down by lia. pose proof (Hm (preVal - postVal) ltac:(lia)). lia.
Qed.

(** Where the sketch follows the formula, the value is within one of the
    formula with the exact quotient. *)
Lemma transition_near_exact seconds :
  pEnd < seconds < pNextStart -> postVal <= preVal \/ preVal = 0 ->
  interpolate_exact preVal postVal pEnd pNextStart seconds - 1
  <= transition int_bits preVal postVal pEnd pNextStart seconds
  <= interpolate_exact preVal postVal pEnd pNextStart seconds + 1.
Proof.
  intros Hgap Hdir. unfold interpolate_exact.
  destruct (Z.lt_trichotomy preVal postVal) as [Hlt|[Heq|Hgt]].
  - assert (H0 : preVal = 0) by lia.
    rewrite transition_up by assumption.
    rewrite Z.quot_div_nonneg by nia.
    pose proof (fade_step_near (seconds - pEnd) (postVal - preVal) (pNextStart - pEnd)
                  ltac:(lia) ltac:(change (2 ^ 24) with 16777216; lia) ltac:(lia)).
    lia.
  - rewrite transition_level by (auto; lia).
    replace (postVal - preVal) with 0 by lia.
    rewrite Z.mul_0_r, Z.quot_0_l by lia. lia.
  - rewrite transition_down by assumption.
    replace ((seconds - pEnd) * (postVal - preVal))
      with (- ((seconds - pEnd) * (preVal - postVal))) by ring.
    rewrite Z.quot_opp_l by lia. rewrite Z.quot_div_nonneg by nia.
    pose proof (fade_step_near (seconds - pEnd) (preVal - postVal) (pNextStart - pEnd)
                  ltac:(lia) ltac:(change (2 ^ 24) with 16777216; lia) ltac:(lia)).
    lia.
Qed.

End Fade.

(** ** From the inner loop to [UpdateLights] *)

Section Resolve.

Variable int_bits : Z.
Variables CHANNELS MAXPERIODS : nat.
Hypothesis int_bits_ge : 16 <= int_bits.

Variable lightMatrix : list (list Row).
Hypothesis Hvalid : valid_matrix CHANNELS MAXPERIODS lightMatrix = true.

Lemma channel_context channel table k :
  lightMatrix !! channel = Some table -> terminal table = Some k ->
  (channel < CHANNELS)%nat /\ length table = MAXPERIODS /\ live table k.
Proof.
  intros Ht Hk.
  pose proof (valid_matrix_lookup_lt _ _ _ _ _ Hvalid Ht) as Hc.
  destruct (valid_matrix_channel _ _ _ _ Hvalid Hc) as [table' [Ht' Hv]].
  rewrite Ht in Ht'. inversion Ht'. subst table'.
  destruct (valid_channel_live _ _ Hv) as [Hlen [_ [k' [Hl _]]]].
  rewrite (live_terminal _ _ Hl) in Hk. inversion Hk. subst k'. auto.
Qed.

(** Up to 24:00 every row read is a live row of its channel. *)
Lemma reads_live lightValue seconds channel period :
  seconds <= 86400 ->
  (channel, period)
    ∈ reads (UpdateLights int_bits CHANNELS MAXPERIODS lightMatrix lightValue seconds) ->
  (channel < CHANNELS)%nat /\ (period < MAXPERIODS)%nat /\
  exists table k, lightMatrix !! channel = Some table /\ terminal table = Some k /\
                  (period <= k)%nat.
Proof.
  intros Hday Hin. unfold UpdateLights in Hin.
  destruct (channels_loop_reads _ _ _ _ _ _ _ _ Hin) as [c0 [Hc0 Hr]].
  apply list_elem_of_In, in_seq in Hc0.
  destruct (channel_stops int_bits CHANNELS MAXPERIODS lightMatrix seconds
              int_bits_ge Hvalid c0 ltac:(lia) Hday)
    as [table [k [Ht [Hlen [Hl [Hk Hs]]]]]].
  destruct (stop_reads _ _ _ _ _ _ _ _ Hs Hr) as [-> Hp].
  split; [lia|]. split; [lia|].
  exists table, k. split; [exact Ht|]. split; [exact (live_terminal _ _ Hl) | exact Hp].
Qed.

Variable lightValue : list Z.
Hypothesis Hlength : length lightValue = CHANNELS.

(** What the inner loop of a channel assigns is what [UpdateLights] leaves
    in that channel. *)
Lemma resolved_of_scan channel seconds log v :
  (channel < CHANNELS)%nat -> seconds <= 86400 ->
  periods_loop int_bits lightMatrix channel seconds MAXPERIODS O = (log, Done (Some v)) ->
  resolved (UpdateLights int_bits CHANNELS MAXPERIODS lightMatrix lightValue seconds)
    channel = Some v.
Proof.
  intros Hc Hday Hscan.
  destruct (UpdateLights_resolved int_bits CHANNELS MAXPERIODS lightMatrix seconds
              int_bits_ge Hvalid lightValue channel Hc Hlength Hday) as [v' [Ha Hr]].
  rewrite Hr. unfold assigned in Ha. rewrite Hscan in Ha. simpl in Ha.
  symmetry. exact Ha.
Qed.

Lemma resolved_in_period channel table k i row seconds :
  lightMatrix !! channel = Some table -> terminal table = Some k ->
  (i <= k)%nat -> table !! i = Some row ->
  (forall j r, i = S j -> table !! j = Some r -> end_of r < seconds) ->
  (i <> O -> start_of row <= seconds) ->
  seconds <= end_of row ->
  resolved (UpdateLights int_bits CHANNELS MAXPERIODS lightMatrix lightValue seconds)
    channel = Some (INTENSITY row).
Proof.
  intros Ht Hk Hi Hr Hprev Hstart Hle.
  destruct (channel_context channel table k Ht Hk) as [Hc [Hlen Hl]].
  pose proof (rf_end_day _ (live_rows _ _ Hl i row Hi Hr)) as Hday.
  eapply resolved_of_scan; [exact Hc | lia |].
  apply (scan_period int_bits MAXPERIODS lightMatrix channel table k seconds
           int_bits_ge Ht Hlen Hl i row Hi Hr Hprev Hstart Hle).
Qed.

Lemma resolved_in_gap channel table k i row next seconds :
  lightMatrix !! channel = Some table -> terminal table = Some k ->
  (i < k)%nat -> table !! i = Some row -> table !! S i = Some next ->
  end_of row < seconds -> seconds < start_of next ->
  resolved (UpdateLights int_bits CHANNELS MAXPERIODS lightMatrix lightValue seconds)
    channel
  = Some (transition int_bits (INTENSITY row) (INTENSITY next)
            (end_of row) (start_of next) seconds).
Proof.
  intros Ht Hk Hi Hr Hn Hlt Hgt.
  destruct (channel_context channel table k Ht Hk) as [Hc [Hlen Hl]].
  pose proof (row_facts_start_day _ (live_rows _ _ Hl (S i) next ltac:(lia) Hn)) as Hday.
  eapply resolved_of_scan; [exact Hc | lia |].
  apply (scan_gap int_bits MAXPERIODS lightMatrix channel table k seconds
           int_bits_ge Ht Hlen Hl i row next Hi Hr Hn Hlt Hgt).
Qed.

Lemma UpdateLights_completes seconds :
  seconds <= 86400 ->
  exists lightValue',
    result (UpdateLights int_bits CHANNELS MAXPERIODS lightMatrix lightValue seconds)
    = Done lightValue' /\ length lightValue' = CHANNELS.
Proof.
  intros Hday. unfold UpdateLights.
  destruct (channels_loop_lookup int_bits MAXPERIODS lightMatrix seconds
              (seq 0 CHANNELS) lightValue) as [lv' [Hres [Hlen _]]].
  - intros c Hc. apply list_elem_of_In, in_seq in Hc.
    destruct (channel_stops int_bits CHANNELS MAXPERIODS lightMatrix seconds
                int_bits_ge Hvalid c ltac:(lia) Hday) as [table [k [_ [_ [_ [_ Hs]]]]]].
    apply (stop_assigned _ _ _ _ _ _ Hs).
  - exists lv'. split; [exact Hres | lia].
Qed.

End Resolve.

(** ** Schedules whose gaps fit [int]

    The two properties that the overflow of [int tDur] breaks on a 16-bit
    board hold whenever the gaps fit, hence for every valid schedule on a
    board whose [int] has 18 bits or more. *)

Lemma gaps_fit_wide int_bits CHANNELS MAXPERIODS lightMatrix :
  18 <= int_bits -> valid_matrix CHANNELS MAXPERIODS lightMatrix = true ->
  gaps_fit int_bits lightMatrix.
Proof.
  intros Hb Hvalid channel table k i row next Ht Hk Hi Hr Hn.
  destruct (channel_context CHANNELS MAXPERIODS lightMatrix Hvalid channel table k Ht Hk)
    as [_ [_ Hl]].
  pose proof (row_facts_end_nonneg _ (live_rows _ _ Hl i row ltac:(lia) Hr)).
  pose proof (row_facts_start_day _ (live_rows _ _ Hl (S i) next ltac:(lia) Hn)).
  assert (2 ^ 17 <= 2 ^ (int_bits - 1)) by (apply Z.pow_le_mono_r; lia).
  change (2 ^ 17) with 131072 in *. lia.
Qed.

(** Every resolved intensity is between 0 and 255. *)
Lemma intensity_in_range_when_gaps_fit int_bits CHANNELS MAXPERIODS
    lightMatrix lightValue seconds channel :
  16 <= int_bits ->
  valid_matrix CHANNELS MAXPERIODS lightMatrix = true ->
  length lightValue = CHANNELS ->
  gaps_fit int_bits lightMatrix ->
  seconds <= 86400 -> (channel < CHANNELS)%nat ->
  exists v,
    resolved (UpdateLights int_bits CHANNELS MAXPERIODS lightMatrix lightValue seconds)
      channel = Some v /\
    0 <= v <= 255.
Proof.
  intros Hb Hvalid Hlen Hfit Hday Hc.
  destruct (channel_stops int_bits CHANNELS MAXPERIODS lightMatrix seconds Hb Hvalid
              channel Hc Hday) as [table [k [Ht [Hlent [Hl [Hk Hs]]]]]].
  destruct (UpdateLights_resolved int_bits CHANNELS MAXPERIODS lightMatrix seconds
              Hb Hvalid lightValue channel Hc Hlen Hday) as [v [Ha Hr]].
  exists v. split; [exact Hr|].
  unfold assigned in Ha.
  inversion Hs as [i row Hi Hrow Hle Heq | i row next Hi Hrow Hnext Hlt Hgt Heq];
    rewrite <- Heq in Ha; unfold result in Ha; simpl in Ha; inversion Ha; subst v.
  - apply (rf_intensity _ (live_rows _ _ Hl i row Hi Hrow)).
  - pose proof (live_rows _ _ Hl i row ltac:(lia) Hrow) as Hrf.
    pose proof (live_rows _ _ Hl (S i) next ltac:(lia) Hnext) as Hnf.
    apply transition_range; try assumption.
    + apply (rf_intensity _ Hrf).
    + apply (rf_intensity _ Hnf).
    + apply (row_facts_end_nonneg _ Hrf).
    + apply (row_facts_start_day _ Hnf).
    + apply (Hfit channel table k i row next Ht (live_terminal _ _ Hl) Hi Hrow Hnext).
    + lia.
Qed.

(** Inside a gap the resolved intensity follows the direction of the fade. *)
Lemma fade_monotone_when_gap_fits int_bits CHANNELS MAXPERIODS lightMatrix lightValue
    channel table k i row next t1 t2 :
  16 <= int_bits ->
  valid_matrix CHANNELS MAXPERIODS lightMatrix = true ->
  length lightValue = CHANNELS ->
  lightMatrix !! channel = Some table -> terminal table = Some k ->
  (i < k)%nat -> table !! i = Some row -> table !! S i = Some next ->
  start_of next - end_of row < 2 ^ (int_bits - 1) ->
  end_of row < t1 -> t1 <= t2 -> t2 < start_of next ->
  exists v1 v2,
    resolved (UpdateLights int_bits CHANNELS MAXPERIODS lightMatrix lightValue t1)
      channel = Some v1 /\
    resolved (UpdateLights int_bits CHANNELS MAXPERIODS lightMatrix lightValue t2)
      channel = Some v2 /\
    (INTENSITY row < INTENSITY next -> v1 <= v2) /\
    (INTENSITY next < INTENSITY row -> v2 <= v1).
Proof.
  intros Hb Hvalid Hlen Ht Hk Hi Hr Hn Hfit H1 H12 H2.
  destruct (channel_context CHANNELS MAXPERIODS lightMatrix Hvalid channel table k Ht Hk)
    as [Hc [Hlent Hl]].
  pose proof (live_rows _ _ Hl i row ltac:(lia) Hr) as Hrf.
  pose proof (live_rows _ _ Hl (S i) next ltac:(lia) Hn) as Hnf.
  eexists. eexists.
  split; [|split].
  - apply (resolved_in_gap int_bits CHANNELS MAXPERIODS Hb lightMatrix Hvalid
             lightValue Hlen channel table k i row next t1 Ht Hk Hi Hr Hn); lia.
  - apply (resolved_in_gap int_bits CHANNELS MAXPERIODS Hb lightMatrix Hvalid
             lightValue Hlen channel table k i row next t2 Ht Hk Hi Hr Hn); lia.
  - apply transition_monotone; try assumption.
    + apply (rf_intensity _ Hrf).
    + apply (rf_intensity _ Hnf).
    + apply (row_facts_end_nonneg _ Hrf).
    + apply (row_facts_start_day _ Hnf).
Qed.

(** The inner loop of a channel looks at the table of that channel only. *)
Lemma periods_loop_result_ext int_bits m1 c1 m2 c2 seconds fuel : forall period,
  m1 !! c1 = m2 !! c2 ->
  result (periods_loop int_bits m1 c1 seconds fuel period)
  = result (periods_loop int_bits m2 c2 seconds fuel period).
Proof.
  induction fuel as [|fuel IH]; intros period Heq; [reflexivity|].
  rewrite !periods_loop_unfold. unfold read. rewrite Heq.
  destruct (m2 !! c2) as [table|]; [|reflexivity].
  destruct (table !! period) as [row|]; [|reflexivity].
  unfold bind at 1 3.
  destruct (GetSeconds int_bits (END_H row) (END_M row) 0 >=? seconds); [reflexivity|].
  destruct (table !! (period + 1)%nat) as [next|]; [|reflexivity].
  unfold bind.
  destruct (GetSeconds int_bits (START_H next) (START_M next) 0 >? seconds);
    [reflexivity|].
  unfold result. simpl. apply (IH (S period) Heq).
Qed.

(** * The claims *)

(** C3.  On a valid schedule and for every time of day in [0, 86400),
    [UpdateLights] completes without indexing [lightMatrix] out of bounds:
    every row it reads is a row of an existing channel at an index below
    [MAXPERIODS], and no later than the terminal row of that channel.  In
    particular row [period + 1] is never read when [period] is the terminal
    row, because the loop stops there first. *)
Theorem scan_stays_in_table int_bits CHANNELS MAXPERIODS lightMatrix lightValue seconds :
  16 <= int_bits ->
  valid_matrix CHANNELS MAXPERIODS lightMatrix = true ->
  length lightValue = CHANNELS ->
  0 <= seconds < 86400 ->
  let run := UpdateLights int_bits CHANNELS MAXPERIODS lightMatrix lightValue seconds in
  (exists lightValue', result run = Done lightValue') /\
  forall channel period, (channel, period) ∈ reads run ->
    (channel < CHANNELS)%nat /\ (period < MAXPERIODS)%nat /\
    exists table k, lightMatrix !! channel = Some table /\
                    terminal table = Some k /\ (period <= k)%nat.
Proof.
  intros Hb Hvalid Hlen Hsec run. split.
  - destruct (UpdateLights_completes int_bits CHANNELS MAXPERIODS Hb lightMatrix
                Hvalid lightValue Hlen seconds ltac:(lia)) as [lv' [Hres _]].
    exists lv'. exact Hres.
  - intros channel period Hin.
    apply (reads_live int_bits CHANNELS MAXPERIODS Hb lightMatrix Hvalid lightValue
             seconds channel period ltac:(lia) Hin).
Qed.

Lemma scan_stays_in_table_witness :
  let run := UpdateLights 16 Sketch.CHANNELS Sketch.MAXPERIODS Sketch.lightMatrix
               Sketch.lightValue 29700 in
  (exists lightValue', result run = Done lightValue') /\
  forall channel period, (channel, period) ∈ reads run ->
    (channel < Sketch.CHANNELS)%nat /\ (period < Sketch.MAXPERIODS)%nat /\
    exists table k, Sketch.lightMatrix !! channel = Some table /\
                    terminal table = Some k /\ (period <= k)%nat.
Proof.
  apply (scan_stays_in_table 16 Sketch.CHANNELS Sketch.MAXPERIODS Sketch.lightMatrix
           Sketch.lightValue 29700); [lia | reflexivity | reflexivity | lia].
Defined.

(** C6.  On a valid schedule, at a time equal to the end of a live period
    the resolved intensity is that of the period: the end belongs to the
    period, not to the gap that follows.  The period has to be one the scan
    can stop at, that is, it ends strictly later than the row before it (a
    row of no duration glued to the end of its predecessor is never the row
    the scan stops at).  At time 0 the resolved intensity is that of the
    first period. *)
Theorem end_boundary_inclusive int_bits CHANNELS MAXPERIODS lightMatrix lightValue
    channel table k :
  16 <= int_bits ->
  valid_matrix CHANNELS MAXPERIODS lightMatrix = true ->
  length lightValue = CHANNELS ->
  lightMatrix !! channel = Some table ->
  terminal table = Some k ->
  (forall i P, (i <= k)%nat -> table !! i = Some P ->
     (forall j r, i = S j -> table !! j = Some r -> end_of r < end_of P) ->
     resolved (UpdateLights int_bits CHANNELS MAXPERIODS lightMatrix lightValue (end_of P))
       channel = Some (INTENSITY P)) /\
  (forall P, table !! O = Some P ->
     resolved (UpdateLights int_bits CHANNELS MAXPERIODS lightMatrix lightValue 0)
       channel = Some (INTENSITY P)).
Proof.
  intros Hb Hvalid Hlen Ht Hk.
  destruct (channel_context CHANNELS MAXPERIODS lightMatrix Hvalid channel table k Ht Hk)
    as [Hc [Hlent Hl]].
  split.
  - intros i P Hi HP Hprev.
    apply (resolved_in_period int_bits CHANNELS MAXPERIODS Hb lightMatrix Hvalid lightValue
             Hlen channel table k i P (end_of P) Ht Hk Hi HP Hprev).
    + intros _. apply (rf_start_end _ (live_rows _ _ Hl i P Hi HP)).
    + lia.
  - intros P HP.
    apply (resolved_in_period int_bits CHANNELS MAXPERIODS Hb lightMatrix Hvalid lightValue
             Hlen channel table k O P 0 Ht Hk ltac:(lia) HP).
    + intros j r Hj. discriminate.
    + intros H0. congruence.
    + apply row_facts_end_nonneg. apply (live_rows _ _ Hl O P ltac:(lia) HP).
Qed.

Lemma end_boundary_inclusive_witness :
  resolved (UpdateLights 16 Sketch.CHANNELS Sketch.MAXPERIODS Sketch.lightMatrix
              Sketch.lightValue 39600) O = Some 255.
Proof.
  apply (proj1 (end_boundary_inclusive 16 Sketch.CHANNELS Sketch.MAXPERIODS
                  Sketch.lightMatrix Sketch.lightValue O
                  [ mkRow 0 0 8 0 0; mkRow 8 30 11 0 255; mkRow 11 10 13 0 0;
                    mkRow 13 10 20 0 255; mkRow 20 30 24 0 0 ] 4%nat
                  ltac:(lia) eq_refl eq_refl eq_refl eq_refl)
           1%nat (mkRow 8 30 11 0 255)); [lia | reflexivity |].
  intros j r Hj Hr. inversion Hj. subst j. simpl in Hr. inversion Hr. subst r.
  vm_compute. reflexivity.
Defined.

(** C10.  At 24:00 exactly (86400, one past the documented range) [UpdateLights]
    on a valid schedule still completes, reads only rows inside the table, and
    leaves in every channel the intensity of its terminal row. *)
Theorem end_of_day_terminal int_bits CHANNELS MAXPERIODS lightMatrix lightValue :
  16 <= int_bits ->
  valid_matrix CHANNELS MAXPERIODS lightMatrix = true ->
  length lightValue = CHANNELS ->
  let run := UpdateLights int_bits CHANNELS MAXPERIODS lightMatrix lightValue 86400 in
  (exists lightValue', result run = Done lightValue') /\
  (forall channel period, (channel, period) ∈ reads run ->
     (channel < CHANNELS)%nat /\ (period < MAXPERIODS)%nat) /\
  (forall channel table k row,
     lightMatrix !! channel = Some table -> terminal table = Some k ->
     table !! k = Some row ->
     resolved run channel = Some (INTENSITY row)).
Proof.
  intros Hb Hvalid Hlen run. split; [|split].
  - destruct (UpdateLights_completes int_bits CHANNELS MAXPERIODS Hb lightMatrix
                Hvalid lightValue Hlen 86400 ltac:(lia)) as [lv' [Hres _]].
    exists lv'. exact Hres.
  - intros channel period Hin.
    destruct (reads_live int_bits CHANNELS MAXPERIODS Hb lightMatrix Hvalid lightValue
                86400 channel period ltac:(lia) Hin) as [Hc [Hp _]].
    split; assumption.
  - intros channel table k row Ht Hk Hr.
    destruct (channel_context CHANNELS MAXPERIODS lightMatrix Hvalid channel table k Ht Hk)
      as [Hc [Hlent Hl]].
    destruct (live_last _ _ Hl) as [rl [Hrl He]].
    rewrite Hr in Hrl. inversion Hrl. subst rl.
    apply (resolved_in_period int_bits CHANNELS MAXPERIODS Hb lightMatrix Hvalid lightValue
             Hlen channel table k k row 86400 Ht Hk (Nat.le_refl _) Hr).
    + intros j r Hj Hjr. apply (live_before _ _ Hl j r ltac:(lia) Hjr).
    + intros _. apply (row_facts_start_day _ (live_rows _ _ Hl k row (Nat.le_refl _) Hr)).
    + lia.
Qed.

Lemma end_of_day_terminal_witness :
  let run := UpdateLights 16 Sketch.CHANNELS Sketch.MAXPERIODS Sketch.lightMatrix
               Sketch.lightValue 86400 in
  (exists lightValue', result run = Done lightValue') /\
  (forall channel period, (channel, period) ∈ reads run ->
     (channel < Sketch.CHANNELS)%nat /\ (period < Sketch.MAXPERIODS)%nat) /\
  (forall channel table k row,
     Sketch.lightMatrix !! channel = Some table -> terminal table = Some k ->
     table !! k = Some row ->
     resolved run channel = Some (INTENSITY row)).
Proof.
  apply (end_of_day_terminal 16 Sketch.CHANNELS Sketch.MAXPERIODS Sketch.lightMatrix
           Sketch.lightValue); [lia | reflexivity | reflexivity].
Defined.

(** C9.  Channels are resolved independently.  For a time of day in
    [0, 86400) the intensity [UpdateLights] leaves in a channel is the one the
    inner loop computes from the table of that channel alone: it is the same
    on any other valid matrix that has the same table on that channel,
    whatever the previous contents of [lightValue] and in whatever order the
    channels are processed. *)
Theorem channels_independent int_bits CHANNELS MAXPERIODS
    lightMatrix1 lightMatrix2 lightValue1 lightValue2 order seconds channel table :
  16 <= int_bits ->
  valid_matrix CHANNELS MAXPERIODS lightMatrix1 = true ->
  valid_matrix CHANNELS MAXPERIODS lightMatrix2 = true ->
  length lightValue1 = CHANNELS ->
  length lightValue2 = CHANNELS ->
  0 <= seconds < 86400 ->
  lightMatrix1 !! channel = Some table ->
  lightMatrix2 !! channel = Some table ->
  order ≡ₚ seq 0 CHANNELS ->
  exists v,
    assigned (periods_loop int_bits [table] O seconds MAXPERIODS O) = Some v /\
    resolved (UpdateLights int_bits CHANNELS MAXPERIODS lightMatrix1 lightValue1 seconds)
      channel = Some v /\
    resolved (channels_loop int_bits MAXPERIODS lightMatrix2 seconds order lightValue2)
      channel = Some v.
Proof.
  intros Hb Hv1 Hv2 Hl1 Hl2 Hsec Ht1 Ht2 Hperm.
  pose proof (valid_matrix_lookup_lt _ _ _ _ _ Hv1 Ht1) as Hc.
  destruct (UpdateLights_resolved int_bits CHANNELS MAXPERIODS lightMatrix1 seconds
              Hb Hv1 lightValue1 channel Hc Hl1 ltac:(lia)) as [v1 [Ha1 Hr1]].
  destruct (channels_loop_resolved int_bits CHANNELS MAXPERIODS lightMatrix2 seconds
              Hb Hv2 order lightValue2 channel) as [v2 [Ha2 Hr2]]; try lia.
  { intros c Hin. rewrite Hperm in Hin. apply list_elem_of_In, in_seq in Hin. lia. }
  { rewrite Hperm. apply list_elem_of_In, in_seq. lia. }
  exists v1. unfold assigned in *.
  rewrite (periods_loop_result_ext int_bits [table] O lightMatrix1 channel)
    by (rewrite Ht1; reflexivity).
  split; [exact Ha1|]. split; [exact Hr1|].
  rewrite Hr2. rewrite <- Ha1, <- Ha2.
  rewrite (periods_loop_result_ext int_bits lightMatrix2 channel lightMatrix1 channel)
    by (rewrite Ht1, Ht2; reflexivity).
  reflexivity.
Qed.

Lemma channels_independent_witness :
  exists v,
    assigned (periods_loop 16 [Tables.quick_dusk] O 29700 Sketch.MAXPERIODS O) = Some v /\
    resolved (UpdateLights 16 Sketch.CHANNELS Sketch.MAXPERIODS
                (Tables.with_channel0 Tables.quick_dusk) [0; 0] 29700) O = Some v /\
    resolved (channels_loop 16 Sketch.MAXPERIODS
                [Tables.quick_dusk; Tables.morning_fade] 29700 [1; 0]%nat [255; 255])
      O = Some v.
Proof.
  apply (channels_independent 16 Sketch.CHANNELS Sketch.MAXPERIODS
           (Tables.with_channel0 Tables.quick_dusk)
           [Tables.quick_dusk; Tables.morning_fade] [0; 0] [255; 255]
           [1; 0]%nat 29700 O Tables.quick_dusk);
    try reflexivity; try lia.
  apply perm_swap.
Defined.

(** C5, as the sketch behaves.  [UpdateLights] checks nothing about its
    argument and has no way to signal its caller.  For a negative time it
    completes and silently leaves in every channel the intensity of its first
    period, as at 00:00.  For a time past 24:00 it walks over every live row;
    if some channel has its terminal row in the last row of the table, the run
    then indexes [lightMatrix] out of bounds. *)
Theorem out_of_range_time_unchecked int_bits CHANNELS MAXPERIODS lightMatrix lightValue
    seconds :
  16 <= int_bits ->
  valid_matrix CHANNELS MAXPERIODS lightMatrix = true ->
  length lightValue = CHANNELS ->
  let run := UpdateLights int_bits CHANNELS MAXPERIODS lightMatrix lightValue seconds in
  (seconds < 0 ->
   forall channel table first,
     lightMatrix !! channel = Some table -> table !! O = Some first ->
     resolved run channel = Some (INTENSITY first)) /\
  (86400 < seconds ->
   forall channel table k,
     lightMatrix !! channel = Some table -> terminal table = Some k ->
     S k = MAXPERIODS ->
     result run = OutOfBounds).
Proof.
  intros Hb Hvalid Hlen run. split.
  - intros Hneg channel table first Ht Hf.
    pose proof (valid_matrix_lookup_lt _ _ _ _ _ Hvalid Ht) as Hc.
    destruct (valid_matrix_channel _ _ _ _ Hvalid Hc) as [table' [Ht' Hv]].
    rewrite Ht in Ht'. inversion Ht'. subst table'.
    destruct (valid_channel_live _ _ Hv) as [_ [_ [k [Hl _]]]].
    apply (resolved_in_period int_bits CHANNELS MAXPERIODS Hb lightMatrix Hvalid
             lightValue Hlen channel table k O first seconds Ht (live_terminal _ _ Hl)
             ltac:(lia) Hf).
    + intros j r Hj. discriminate.
    + intros H0. congruence.
    + pose proof (row_facts_end_nonneg _ (live_rows _ _ Hl O first ltac:(lia) Hf)). lia.
  - intros Hpast channel table k Ht Hk HS.
    destruct (channel_context CHANNELS MAXPERIODS lightMatrix Hvalid channel table k Ht Hk)
      as [Hc [Hlent Hl]].
    unfold run, UpdateLights.
    apply (channels_loop_fault int_bits MAXPERIODS lightMatrix seconds
             (seq 0 CHANNELS) lightValue channel).
    + apply list_elem_of_In, in_seq. lia.
    + rewrite (scan_past int_bits MAXPERIODS lightMatrix channel table k seconds
                 Hb Ht Hlent Hl Hpast HS). reflexivity.
Qed.

Lemma out_of_range_time_unchecked_witness :
  let run := UpdateLights 16 Sketch.CHANNELS Sketch.MAXPERIODS Sketch.lightMatrix
               [255; 255] 90000 in
  (90000 < 0 ->
   forall channel table first,
     Sketch.lightMatrix !! channel = Some table -> table !! O = Some first ->
     resolved run channel = Some (INTENSITY first)) /\
  (86400 < 90000 ->
   forall channel table k,
     Sketch.lightMatrix !! channel = Some table -> terminal table = Some k ->
     S k = Sketch.MAXPERIODS ->
     result run = OutOfBounds).
Proof.
  apply (out_of_range_time_unchecked 16 Sketch.CHANNELS Sketch.MAXPERIODS
           Sketch.lightMatrix [255; 255] 90000); [lia | reflexivity | reflexivity].
Defined.

(** C5, as claimed, fails: after a run at 09:00 has left both channels fully
    on, a call with the time -1, outside [0, 86400), is not rejected; it
    completes and overwrites both intensities with 0. *)
Lemma negative_time_not_rejected :
  ~ (0 <= -1 < 86400) /\
  result (UpdateLights avr_int_bits Sketch.CHANNELS Sketch.MAXPERIODS
            Sketch.lightMatrix [255; 255] 32400) = Done [255; 255] /\
  result (UpdateLights avr_int_bits Sketch.CHANNELS Sketch.MAXPERIODS
            Sketch.lightMatrix [255; 255] (-1)) = Done [0; 0] /\
  result (UpdateLights arm_int_bits Sketch.CHANNELS Sketch.MAXPERIODS
            Sketch.lightMatrix [255; 255] (-1)) = Done [0; 0].
Proof. split; [lia|]. repeat split; vm_compute; reflexivity. Qed.

(** C1, as the sketch computes.  On a valid schedule, at a time strictly
    inside the gap after a live row, when the gap is short enough for its
    duration to fit [int] and the intensity does not increase (or increases
    from 0), the resolved intensity is that of the row plus the truncated
    product [elapsed * (delta / gapDuration)], where the quotient and then the
    product are single-precision floats, each rounded to nearest.  It is not
    always the exact quotient [elapsed * delta / gapDuration] that is
    truncated, but the two differ by one at most. *)
Theorem gap_value_single_precision int_bits CHANNELS MAXPERIODS lightMatrix lightValue
    channel table k i row next seconds :
  16 <= int_bits ->
  valid_matrix CHANNELS MAXPERIODS lightMatrix = true ->
  length lightValue = CHANNELS ->
  lightMatrix !! channel = Some table ->
  terminal table = Some k ->
  (i < k)%nat -> table !! i = Some row -> table !! S i = Some next ->
  end_of row < seconds < start_of next ->
  start_of next - end_of row < 2 ^ (int_bits - 1) ->
  INTENSITY next <= INTENSITY row \/ INTENSITY row = 0 ->
  let value := interpolate_float int_bits (INTENSITY row) (INTENSITY next)
                 (end_of row) (start_of next) seconds in
  let exact := interpolate_exact (INTENSITY row) (INTENSITY next)
                 (end_of row) (start_of next) seconds in
  resolved (UpdateLights int_bits CHANNELS MAXPERIODS lightMatrix lightValue seconds)
    channel = Some value /\
  exact - 1 <= value <= exact + 1.
Proof.
  intros Hb Hvalid Hlen Ht Hk Hi Hr Hn Hgap Hfits Hdir value exact.
  destruct (channel_context CHANNELS MAXPERIODS lightMatrix Hvalid channel table k Ht Hk)
    as [Hc [Hlent Hl]].
  pose proof (live_rows _ _ Hl i row ltac:(lia) Hr) as Hrf.
  pose proof (live_rows _ _ Hl (S i) next ltac:(lia) Hn) as Hnf.
  pose proof (row_facts_end_nonneg _ Hrf) as He.
  pose proof (row_facts_start_day _ Hnf) as Hs.
  pose proof (rf_intensity _ Hrf) as Hpre.
  pose proof (rf_intensity _ Hnf) as Hpost.
  assert (Heq : transition int_bits (INTENSITY row) (INTENSITY next)
                  (end_of row) (start_of next) seconds = value).
  { destruct (Z_le_gt_dec (INTENSITY next) (INTENSITY row)) as [Hle|Hgt].
    - apply transition_decreasing_float; lia.
    - apply transition_from_zero_float; lia. }
  split.
  - rewrite (resolved_in_gap int_bits CHANNELS MAXPERIODS Hb lightMatrix Hvalid
               lightValue Hlen channel table k i row next seconds Ht Hk Hi Hr Hn)
      by lia.
    f_equal. exact Heq.
  - rewrite <- Heq. apply transition_near_exact; try assumption; lia.
Qed.

Lemma gap_value_single_precision_witness :
  resolved (UpdateLights 16 Sketch.CHANNELS Sketch.MAXPERIODS
              (Tables.with_channel0 Tables.quick_dusk) [0; 0] 29550) O
  = Some (interpolate_float 16 108 0 28800 30300 29550) /\
  interpolate_exact 108 0 28800 30300 29550 - 1
  <= interpolate_float 16 108 0 28800 30300 29550
  <= interpolate_exact 108 0 28800 30300 29550 + 1.
Proof.
  apply (gap_value_single_precision 16 Sketch.CHANNELS Sketch.MAXPERIODS
           (Tables.with_channel0 Tables.quick_dusk) [0; 0] O Tables.quick_dusk
           1%nat O (mkRow 0 0 8 0 108) (mkRow 8 25 24 0 0) 29550);
    [lia | reflexivity | reflexivity | reflexivity | reflexivity | lia
    | reflexivity | reflexivity | | | ].
  - vm_compute. split; reflexivity.
  - vm_compute. reflexivity.
  - left. vm_compute. discriminate.
Defined.

(** The two floats of that fade: 108 / 1500 rounds to 9663676 * 2^-27, just
    below 0.072, and its product by 750 rounds to 14155775 * 2^-18, the float
    just below 54 = 14155776 * 2^-18. *)
Lemma quick_dusk_floats :
  div (of_Z 108) (of_Z 1500) = S754_finite false 9663676 (-27) /\
  mul (of_Z 750) (div (of_Z 108) (of_Z 1500)) = S754_finite false 14155775 (-18) /\
  trunc (S754_finite false 14155775 (-18)) = 53 /\
  14155775 < 54 * 2 ^ 18.
Proof. vm_compute. repeat split; reflexivity. Qed.

(** C1, as claimed, fails.  On the valid table [quick_dusk], at 08:12:30,
    halfway through the 25-minute gap from intensity 108 to 0, the exact
    formula gives 108 + (750 * -108) / 1500 = 108 - 54 = 54.  The sketch
    divides 108 by 1500 in single precision, which rounds the quotient 0.072
    down, so that the product with 750 is a float just below 54 and truncates
    to 53: the intensity is 108 - 53 = 55, on either width of [int]. *)
Lemma gap_value_differs_from_exact_quotient :
  valid_matrix Sketch.CHANNELS Sketch.MAXPERIODS
    (Tables.with_channel0 Tables.quick_dusk) = true /\
  end_of (mkRow 0 0 8 0 108) < 29550 < start_of (mkRow 8 25 24 0 0) /\
  resolved (UpdateLights avr_int_bits Sketch.CHANNELS Sketch.MAXPERIODS
              (Tables.with_channel0 Tables.quick_dusk)
              [0; 0] 29550) O = Some 55 /\
  resolved (UpdateLights arm_int_bits Sketch.CHANNELS Sketch.MAXPERIODS
              (Tables.with_channel0 Tables.quick_dusk)
              [0; 0] 29550) O = Some 55 /\
  interpolate_exact 108 0 (end_of (mkRow 0 0 8 0 108)) (start_of (mkRow 8 25 24 0 0)) 29550
  = 54.
Proof. vm_compute. repeat split; reflexivity. Qed.

(** The increasing branch (line 160) assigns the truncated product alone,
    without the previous intensity that the decreasing branch starts from:
    halfway through the fade from 100 to 200 of [brighten] the intensity is
    50, not 150. *)
Lemma increasing_branch_drops_previous_level :
  valid_matrix Sketch.CHANNELS Sketch.MAXPERIODS
    (Tables.with_channel0 Tables.brighten) = true /\
  resolved (UpdateLights avr_int_bits Sketch.CHANNELS Sketch.MAXPERIODS
              (Tables.with_channel0 Tables.brighten)
              [0; 0] 29700) O = Some 50 /\
  resolved (UpdateLights arm_int_bits Sketch.CHANNELS Sketch.MAXPERIODS
              (Tables.with_channel0 Tables.brighten)
              [0; 0] 29700) O = Some 50 /\
  interpolate_exact 100 200 28800 30600 29700 = 150.
Proof. vm_compute. repeat split; reflexivity. Qed.

(** C8, as the sketch computes.  In a gap whose duration fits [int], the
    decreasing branch, [preVal - (int)(elapsed * ((float)(0 - delta) /
    tDur))], gives the result of the one formula [preVal + (int)(elapsed *
    ((float)delta / tDur))] taken with the negative [delta], when the formula
    is evaluated in single precision as the branch is; and it is within one
    of the formula with the exact quotient truncated toward zero. *)
Theorem decreasing_branch_unified_float int_bits preVal postVal pEnd pNextStart seconds :
  16 <= int_bits ->
  0 <= preVal <= 255 -> 0 <= postVal <= 255 ->
  0 <= pEnd -> pEnd < seconds < pNextStart -> pNextStart <= 86400 ->
  pNextStart - pEnd < 2 ^ (int_bits - 1) ->
  postVal < preVal ->
  transition int_bits preVal postVal pEnd pNextStart seconds
  = interpolate_float int_bits preVal postVal pEnd pNextStart seconds /\
  interpolate_exact preVal postVal pEnd pNextStart seconds - 1
  <= transition int_bits preVal postVal pEnd pNextStart seconds
  <= interpolate_exact preVal postVal pEnd pNextStart seconds + 1.
Proof.
  intros Hb Hpre Hpost He Hgap Hs Hfits Hlt. split.
  - apply transition_decreasing_float; lia.
  - apply transition_near_exact; try assumption; lia.
Qed.

Lemma decreasing_branch_unified_float_witness :
  transition 16 108 0 28800 30300 29550 = interpolate_float 16 108 0 28800 30300 29550 /\
  interpolate_exact 108 0 28800 30300 29550 - 1
  <= transition 16 108 0 28800 30300 29550
  <= interpolate_exact 108 0 28800 30300 29550 + 1.
Proof.
  apply (decreasing_branch_unified_float 16 108 0 28800 30300 29550); lia.
Defined.

(** C8, as claimed, fails: from 108 to 0 over 1500 seconds, 750 seconds in,
    the decreasing branch gives 108 - 53 = 55 where the formula with the exact
    quotient truncated toward zero gives 108 + (750 * -108) / 1500 = 54. *)
Lemma decreasing_branch_differs_from_exact :
  transition avr_int_bits 108 0 28800 30300 29550 = 55 /\
  transition arm_int_bits 108 0 28800 30300 29550 = 55 /\
  interpolate_exact 108 0 28800 30300 29550 = 54.
Proof. vm_compute. repeat split; reflexivity. Qed.

(** C2 on the AVR boards.  [tDur] is an [int] that receives the difference of
    two [long]; a gap of more than 32767 seconds does not fit 16 bits.  On the
    valid table [slow_sunrise] the gap of 22 hours, 79200 seconds, becomes
    13664, and at 11:00 the sketch assigns (int)(36000 * (255 / 13664)) = 671,
    outside [0, 255]. *)
Theorem long_gap_exceeds_255 :
  valid_matrix Sketch.CHANNELS Sketch.MAXPERIODS
    (Tables.with_channel0 Tables.slow_sunrise) = true /\
  0 <= GetSeconds avr_int_bits 11 0 0 < 86400 /\
  wrap avr_int_bits (wrap long_bits (82800 - 3600)) = 13664 /\
  resolved (UpdateLights avr_int_bits Sketch.CHANNELS Sketch.MAXPERIODS
              (Tables.with_channel0 Tables.slow_sunrise)
              Sketch.lightValue (GetSeconds avr_int_bits 11 0 0)) O = Some 671.
Proof. vm_compute. repeat split; try reflexivity; discriminate. Qed.

(** C7 on the AVR boards, from the same [int tDur].  On the valid table
    [morning_fade] the gap of 10 hours, 36000 seconds, becomes -29536; the
    intensity increases from 0 to 255 across the gap, yet the sketch assigns
    -31 at 02:00 and -62 at 03:00: the output decreases as time advances. *)
Theorem long_gap_fades_backwards :
  valid_matrix Sketch.CHANNELS Sketch.MAXPERIODS
    (Tables.with_channel0 Tables.morning_fade) = true /\
  end_of (mkRow 0 0 1 0 0) < 7200 /\ 7200 <= 10800 /\
  10800 < start_of (mkRow 11 0 24 0 255) /\
  INTENSITY (mkRow 11 0 24 0 255) - INTENSITY (mkRow 0 0 1 0 0) > 0 /\
  wrap avr_int_bits (wrap long_bits (39600 - 3600)) = -29536 /\
  resolved (UpdateLights avr_int_bits Sketch.CHANNELS Sketch.MAXPERIODS
              (Tables.with_channel0 Tables.morning_fade)
              Sketch.lightValue 7200) O = Some (-31) /\
  resolved (UpdateLights avr_int_bits Sketch.CHANNELS Sketch.MAXPERIODS
              (Tables.with_channel0 Tables.morning_fade)
              Sketch.lightValue 10800) O = Some (-62).
Proof. vm_compute. repeat split; try reflexivity; discriminate. Qed.

(** Comparisons between clock times of given rows. *)
Ltac clock := unfold start_of, end_of; simpl; lia.

(** The row before a given row of a given table has ended. *)
Ltac previous_row_ended :=
  let j := fresh "j" in
  let r := fresh "r" in
  let Hj := fresh "Hj" in
  let Hr := fresh "Hr" in
  intros j r Hj Hr; inversion Hj; subst j; inversion Hr; subst r; clock.

(** C4.  The shipped table of channel 0, on any board: intensity 0 at
    07:59:59; 127 at 08:15:00, 900 seconds into the gap of 1800 seconds from 0
    to 255; 255 at 08:30:00; 255 at 11:00:00; 0 at 23:59:59. *)
Theorem shipped_channel0_scenario int_bits :
  16 <= int_bits ->
  let at_time h m sec :=
    resolved (Sketch.UpdateLights int_bits (GetSeconds int_bits h m sec)) O in
  at_time 7 59 59 = Some 0 /\
  at_time 8 15 0 = Some 127 /\
  at_time 8 30 0 = Some 255 /\
  at_time 11 0 0 = Some 255 /\
  at_time 23 59 59 = Some 0.
Proof.
  intros Hb at_time. unfold at_time, Sketch.UpdateLights.
  rewrite !(GetSeconds_clock int_bits Hb) by lia.
  assert (Hvalid : valid_matrix Sketch.CHANNELS Sketch.MAXPERIODS Sketch.lightMatrix = true)
    by reflexivity.
  pose (table := [ mkRow 0 0 8 0 0; mkRow 8 30 11 0 255; mkRow 11 10 13 0 0;
                   mkRow 13 10 20 0 255; mkRow 20 30 24 0 0 ]).
  assert (Ht : Sketch.lightMatrix !! O = Some table) by reflexivity.
  assert (Hk : terminal table = Some 4%nat) by reflexivity.
  pose proof (resolved_in_period int_bits Sketch.CHANNELS Sketch.MAXPERIODS Hb
                Sketch.lightMatrix Hvalid Sketch.lightValue eq_refl O table 4%nat) as P.
  pose proof (resolved_in_gap int_bits Sketch.CHANNELS Sketch.MAXPERIODS Hb
                Sketch.lightMatrix Hvalid Sketch.lightValue eq_refl O table 4%nat) as G.
  split; [|split; [|split; [|split]]].
  - apply (P O (mkRow 0 0 8 0 0) _ Ht Hk); [lia | reflexivity | | | ].
    + intros j r Hj. discriminate.
    + intros H0. congruence.
    + clock.
  - rewrite (G O (mkRow 0 0 8 0 0) (mkRow 8 30 11 0 255) _ Ht Hk);
      [ | lia | reflexivity | reflexivity | clock | clock ].
    f_equal. unfold end_of, start_of. simpl.
    assert (Hpow : 2 ^ 15 <= 2 ^ (int_bits - 1)) by (apply Z.pow_le_mono_r; lia).
    change (2 ^ 15) with 32768 in Hpow.
    rewrite (transition_increasing int_bits Hb) by lia.
    unfold to_int.
    replace (trunc _) with 127 by (vm_compute; reflexivity).
    apply wrap_int; lia.
  - apply (P 1%nat (mkRow 8 30 11 0 255) _ Ht Hk); [lia | reflexivity | | | ].
    + previous_row_ended.
    + intros _. clock.
    + clock.
  - apply (P 1%nat (mkRow 8 30 11 0 255) _ Ht Hk); [lia | reflexivity | | | ].
    + previous_row_ended.
    + intros _. clock.
    + clock.
  - apply (P 4%nat (mkRow 20 30 24 0 0) _ Ht Hk); [lia | reflexivity | | | ].
    + previous_row_ended.
    + intros _. clock.
    + clock.
Qed.

Lemma shipped_channel0_scenario_witness :
  let at_time h m sec :=
    resolved (Sketch.UpdateLights 16 (GetSeconds 16 h m sec)) O in
  at_time 7 59 59 = Some 0 /\
  at_time 8 15 0 = Some 127 /\
  at_time 8 30 0 = Some 255 /\
  at_time 11 0 0 = Some 255 /\
  at_time 23 59 59 = Some 0.
Proof. apply (shipped_channel0_scenario 16). lia. Defined.

(** * Further properties of the sketch *)

(** ** The clock *)

Lemma GetSeconds_exact int_bits hours minutes seconds :
  16 <= int_bits ->
  - 32768 <= hours < 32768 -> - 546 <= minutes <= 546 -> - 32768 <= seconds < 32768 ->
  GetSeconds int_bits hours minutes seconds = hours * 3600 + minutes * 60 + seconds.
Proof.
  intros Hb Hh Hm Hs. unfold GetSeconds.
  rewrite (wrap_int int_bits (minutes * 60)) by lia.
  rewrite (wrap_long (hours * 60)) by lia.
  rewrite (wrap_long (hours * 60 * 60)) by lia.
  rewrite (wrap_long (hours * 60 * 60 + minutes * 60)) by lia.
  rewrite wrap_long by lia. lia.
Qed.

(** X1.  [GetSeconds] is the number of seconds [hours * 3600 + minutes * 60 +
    seconds] on every board, for every [hours] and [seconds] that a 16-bit
    [int] holds and every [minutes] whose product by 60 does: from -546 to
    546. *)
Theorem GetSeconds_no_overflow int_bits hours minutes seconds :
  16 <= int_bits ->
  - 32768 <= hours < 32768 -> - 546 <= minutes <= 546 -> - 32768 <= seconds < 32768 ->
  GetSeconds int_bits hours minutes seconds = hours * 3600 + minutes * 60 + seconds.
Proof.
  intros Hb Hh Hm Hs. unfold GetSeconds.
  assert (Hproduct : wrap int_bits (minutes * 60) = minutes * 60)
    by (apply wrap_int; lia).
  assert (Hhours : wrap long_bits (wrap long_bits (hours * 60) * 60) = hours * 3600).
  { rewrite (wrap_long (hours * 60)) by lia. rewrite wrap_long by lia. lia. }
  rewrite Hproduct, Hhours.
  rewrite (wrap_long (hours * 3600 + minutes * 60)) by lia.
  apply wrap_long. lia.
Qed.

Lemma GetSeconds_no_overflow_witness :
  GetSeconds 16 165 165 85 = 165 * 3600 + 165 * 60 + 85.
Proof. apply (GetSeconds_no_overflow 16 165 165 85); lia. Defined.

(** X2.  On clock readings, 00:00:00 to 23:59:59, [GetSeconds] is a time of
    day in [0, 86400) from which the reading is recovered: the hour is the
    quotient by 3600, the minute the quotient by 60 of the rest, the second
    the remainder modulo 60.  Two different readings never give the same
    number of seconds. *)
Theorem GetSeconds_round_trip int_bits hours minutes seconds :
  16 <= int_bits ->
  0 <= hours < 24 -> 0 <= minutes < 60 -> 0 <= seconds < 60 ->
  let t := GetSeconds int_bits hours minutes seconds in
  0 <= t < 86400 /\
  t / 3600 = hours /\ (t mod 3600) / 60 = minutes /\ t mod 60 = seconds.
Proof.
  intros Hb Hh Hm Hs t. unfold t. rewrite GetSeconds_exact by lia.
  split; [lia|]. split; [|split].
  - symmetry. apply (Z.div_unique _ _ _ (minutes * 60 + seconds)); lia.
  - assert (Hr : (hours * 3600 + minutes * 60 + seconds) mod 3600
                 = minutes * 60 + seconds).
    { symmetry. apply (Z.mod_unique _ _ hours); lia. }
    rewrite Hr. symmetry. apply (Z.div_unique _ _ _ seconds); lia.
  - symmetry. apply (Z.mod_unique _ _ (hours * 60 + minutes)); lia.
Qed.

Lemma GetSeconds_round_trip_witness :
  let t := GetSeconds 16 20 30 15 in
  0 <= t < 86400 /\ t / 3600 = 20 /\ (t mod 3600) / 60 = 30 /\ t mod 60 = 15.
Proof. apply (GetSeconds_round_trip 16 20 30 15); lia. Defined.

(** X3.  [GetSeconds] keeps the order of clock readings: one reading gives
    fewer seconds than another exactly when it is the earlier one, hours
    compared first, then minutes, then seconds. *)
Theorem GetSeconds_order int_bits h1 m1 s1 h2 m2 s2 :
  16 <= int_bits ->
  0 <= h1 < 24 -> 0 <= m1 < 60 -> 0 <= s1 < 60 ->
  0 <= h2 < 24 -> 0 <= m2 < 60 -> 0 <= s2 < 60 ->
  GetSeconds int_bits h1 m1 s1 < GetSeconds int_bits h2 m2 s2
  <-> h1 < h2 \/ (h1 = h2 /\ (m1 < m2 \/ (m1 = m2 /\ s1 < s2))).
Proof.
  intros Hb Hh1 Hm1 Hs1 Hh2 Hm2 Hs2. rewrite !GetSeconds_exact by lia. lia.
Qed.

Lemma GetSeconds_order_witness :
  GetSeconds 16 7 59 59 < GetSeconds 16 8 0 0
  <-> 7 < 8 \/ (7 = 8 /\ (59 < 0 \/ (59 = 0 /\ 59 < 0))).
Proof. apply (GetSeconds_order 16 7 59 59 8 0 0); lia. Defined.

(** X4.  [minutes * 60] is multiplied in [int], without the cast to [long]
    that [hours] gets: on a board with a 16-bit [int], for [minutes] from 547
    to 1092 the product wraps and [GetSeconds] returns 65536 seconds less
    than the time, while a board with a 32-bit [int] returns the time. *)
Theorem GetSeconds_minutes_wrap hours minutes seconds :
  0 <= hours <= 24 -> 547 <= minutes <= 1092 -> 0 <= seconds < 60 ->
  GetSeconds avr_int_bits hours minutes seconds
  = hours * 3600 + minutes * 60 + seconds - 65536 /\
  GetSeconds arm_int_bits hours minutes seconds
  = hours * 3600 + minutes * 60 + seconds.
Proof.
  intros Hh Hm Hs. unfold GetSeconds. split.
  - assert (Hw : wrap avr_int_bits (minutes * 60) = minutes * 60 - 65536).
    { unfold wrap, avr_int_bits. change (2 ^ 16) with 65536.
      change (2 ^ (16 - 1)) with 32768.
      rewrite <- (Z.mod_unique (minutes * 60 + 32768) 65536 1 (minutes * 60 - 32768));
        lia. }
    rewrite Hw.
    rewrite (wrap_long (hours * 60)) by lia.
    rewrite (wrap_long (hours * 60 * 60)) by lia.
    rewrite (wrap_long (hours * 60 * 60 + (minutes * 60 - 65536))) by lia.
    rewrite wrap_long by lia. lia.
  - assert (Hw : wrap arm_int_bits (minutes * 60) = minutes * 60).
    { apply wrap_in_range; [reflexivity|]. unfold in_range, arm_int_bits.
      change (2 ^ (32 - 1)) with 2147483648. lia. }
    rewrite Hw.
    rewrite (wrap_long (hours * 60)) by lia.
    rewrite (wrap_long (hours * 60 * 60)) by lia.
    rewrite (wrap_long (hours * 60 * 60 + minutes * 60)) by lia.
    rewrite wrap_long by lia. lia.
Qed.

Lemma GetSeconds_minutes_wrap_witness :
  GetSeconds avr_int_bits 0 720 0 = 0 * 3600 + 720 * 60 + 0 - 65536 /\
  GetSeconds arm_int_bits 0 720 0 = 0 * 3600 + 720 * 60 + 0.
Proof. apply (GetSeconds_minutes_wrap 0 720 0); lia. Defined.

(** ** Tables of any contents *)

Lemma dimensioned_channel CHANNELS MAXPERIODS lightMatrix channel :
  dimensioned CHANNELS MAXPERIODS lightMatrix = true -> (channel < CHANNELS)%nat ->
  exists table, lightMatrix !! channel = Some table /\ length table = MAXPERIODS.
Proof.
  unfold dimensioned. rewrite andb_true_iff. intros [Hlen Hall] Hc.
  apply Nat.eqb_eq in Hlen.
  destruct (lookup_lt_is_Some_2 lightMatrix channel) as [table Ht]; [lia|].
  exists table. split; [exact Ht|].
  rewrite forallb_forall in Hall. apply Nat.eqb_eq. apply Hall.
  apply list_elem_of_In. apply (list_elem_of_lookup_2 _ _ _ Ht).
Qed.

Lemma valid_matrix_dimensioned CHANNELS MAXPERIODS lightMatrix :
  valid_matrix CHANNELS MAXPERIODS lightMatrix = true ->
  dimensioned CHANNELS MAXPERIODS lightMatrix = true.
Proof.
  unfold valid_matrix, dimensioned. rewrite !andb_true_iff. intros [Hlen Hall].
  split; [exact Hlen|]. rewrite forallb_forall in *. intros table Hin.
  specialize (Hall table Hin). unfold valid_channel in Hall.
  rewrite !andb_true_iff in Hall. tauto.
Qed.

Lemma result_bind {A B} (m : Run A) (k : A -> Run B) a :
  result m = Done a -> result (bind m k) = result (k a).
Proof. destruct m as [log r]. unfold result. simpl. intros ->. reflexivity. Qed.


Section AnyTable.

Variable int_bits : Z.
Variable lightMatrix : list (list Row).
Variable channel : nat.
Variable table : list Row.
Variable seconds : Z.
Hypothesis Htable : lightMatrix !! channel = Some table.

Local Abbreviation pEnd r := (GetSeconds int_bits (END_H r) (END_M r) 0).
Local Abbreviation pStart r := (GetSeconds int_bits (START_H r) (START_M r) 0).


(** On a table of clock times, past 24:00 every row has ended and every row
    has started: the loop runs through the whole table and reads the row
    after the last one. *)
Lemma periods_loop_after_midnight MAXPERIODS :
  16 <= int_bits -> length table = S MAXPERIODS ->
  forallb clock_row table = true -> 86400 < seconds ->
  periods_loop int_bits lightMatrix channel seconds (S MAXPERIODS) O
  = (skipped channel O MAXPERIODS ++ [(channel, MAXPERIODS); (channel, S MAXPERIODS)],
     OutOfBounds).
Proof.
  intros Hb Hlen Hclock Hlate.
  assert (Hrow : forall j r, table !! j = Some r ->
                   pEnd r < seconds /\ pStart r <= seconds).
  { intros j r Hr. rewrite forallb_forall in Hclock.
    specialize (Hclock r (proj1 (list_elem_of_In _ _) (list_elem_of_lookup_2 _ _ _ Hr))).
    unfold clock_row in Hclock. rewrite !andb_true_iff in Hclock.
    rewrite !Z.leb_le, !Z.ltb_lt in Hclock. unfold start_of, end_of in Hclock.
    rewrite !(GetSeconds_clock int_bits Hb) by lia. lia. }
  replace (S MAXPERIODS) with (MAXPERIODS + 1)%nat at 1 by lia.
  rewrite (periods_loop_skip int_bits lightMatrix channel table seconds Htable
             MAXPERIODS 1 O).
  - cbv zeta. rewrite Nat.add_0_l.
    destruct (lookup_lt_is_Some_2 table MAXPERIODS) as [row Hr]; [lia|].
    rewrite (periods_loop_past int_bits lightMatrix channel table seconds Htable
               O MAXPERIODS row Hr).
    + reflexivity.
    + apply lookup_ge_None_2. lia.
    + apply (Hrow _ _ Hr).
  - intros j Hj.
    destruct (lookup_lt_is_Some_2 table j) as [row Hr]; [lia|].
    destruct (lookup_lt_is_Some_2 table (S j)) as [next Hn]; [lia|].
    exists row, next. split; [exact Hr|]. split; [exact Hn|].
    split; [apply (Hrow _ _ Hr) | apply (Hrow _ _ Hn)].
Qed.

End AnyTable.

Section AnyMatrix.

Variable int_bits : Z.
Variables CHANNELS MAXPERIODS : nat.
Variable lightMatrix : list (list Row).
Variable seconds : Z.
Hypothesis Hdim : dimensioned CHANNELS MAXPERIODS lightMatrix = true.
Hypothesis Hrows : (0 < MAXPERIODS)%nat.

Local Abbreviation scan channel :=
  (periods_loop int_bits lightMatrix channel seconds MAXPERIODS O).





End AnyMatrix.




(** Past 24:00 on tables of clock times: the run of channel 0 leaves the
    table, and the run of [UpdateLights] ends there. *)
Lemma UpdateLights_after_midnight int_bits C M lightMatrix lightValue seconds :
  16 <= int_bits ->
  dimensioned (S C) (S M) lightMatrix = true ->
  forallb (forallb clock_row) lightMatrix = true ->
  86400 < seconds ->
  UpdateLights int_bits (S C) (S M) lightMatrix lightValue seconds
  = (skipped O O M ++ [(O, M); (O, S M)], OutOfBounds).
Proof.
  intros Hb Hdim Hclock Hlate.
  destruct (dimensioned_channel _ _ _ O Hdim ltac:(lia)) as [table [Ht Hlen]].
  assert (Hct : forallb clock_row table = true).
  { rewrite forallb_forall in Hclock. apply Hclock.
    apply list_elem_of_In. apply (list_elem_of_lookup_2 _ _ _ Ht). }
  unfold UpdateLights. cbn [seq channels_loop].
  rewrite (periods_loop_after_midnight int_bits lightMatrix O table seconds Ht M
             Hb Hlen Hct Hlate).
  reflexivity.
Qed.

(** X7.  For a time past 24:00, on tables all of whose rows hold clock times
    up to 24:00 (valid schedules and their filler rows among them),
    [UpdateLights] runs through the whole table of channel 0 and reads the
    row after its last one: the run indexes [lightMatrix] out of bounds, at
    [period + 1 = MAXPERIODS]. *)
Theorem after_24h_reads_past_table int_bits CHANNELS MAXPERIODS lightMatrix lightValue
    seconds :
  16 <= int_bits ->
  dimensioned CHANNELS MAXPERIODS lightMatrix = true ->
  (0 < CHANNELS)%nat -> (0 < MAXPERIODS)%nat ->
  forallb (forallb clock_row) lightMatrix = true ->
  86400 < seconds ->
  let run := UpdateLights int_bits CHANNELS MAXPERIODS lightMatrix lightValue seconds in
  result run = OutOfBounds /\
  (O, MAXPERIODS) ∈ reads run /\
  forall channel period, (channel, period) ∈ reads run -> channel = O.
Proof.
  intros Hb Hdim Hc Hrows Hclock Hlate run.
  destruct CHANNELS as [|C]; [lia|]. destruct MAXPERIODS as [|M]; [lia|].
  unfold run.
  rewrite (UpdateLights_after_midnight int_bits C M lightMatrix lightValue seconds
             Hb Hdim Hclock Hlate).
  unfold result, reads. simpl fst. simpl snd.
  split; [reflexivity|]. split.
  - apply elem_of_app. right. right. left.
  - intros channel period Hin. apply elem_of_app in Hin as [Hin|Hin].
    + apply skipped_bound in Hin. tauto.
    + apply elem_of_cons in Hin as [Hin|Hin]; [inversion Hin; reflexivity|].
      apply list_elem_of_singleton in Hin. inversion Hin. reflexivity.
Qed.

Lemma after_24h_reads_past_table_witness :
  let run := UpdateLights 16 Sketch.CHANNELS Sketch.MAXPERIODS Sketch.lightMatrix
               Sketch.lightValue 86401 in
  result run = OutOfBounds /\
  (O, Sketch.MAXPERIODS) ∈ reads run /\
  forall channel period, (channel, period) ∈ reads run -> channel = O.
Proof.
  apply (after_24h_reads_past_table 16 Sketch.CHANNELS Sketch.MAXPERIODS
           Sketch.lightMatrix Sketch.lightValue 86401);
    [lia | reflexivity | unfold Sketch.CHANNELS; lia | unfold Sketch.MAXPERIODS; lia
     | reflexivity | lia].
Defined.

(** ** Valid schedules *)

(** X8.  On a valid schedule, during a live period the resolved intensity is
    that of the period: from its start to its end, both included, at every
    time that is later than the end of the row before (which leaves out only
    the start of a row glued to the end of its predecessor, where the
    predecessor still holds). *)
Theorem period_holds_intensity int_bits CHANNELS MAXPERIODS lightMatrix lightValue
    channel table k i row seconds :
  16 <= int_bits ->
  valid_matrix CHANNELS MAXPERIODS lightMatrix = true ->
  length lightValue = CHANNELS ->
  lightMatrix !! channel = Some table -> terminal table = Some k ->
  (i <= k)%nat -> table !! i = Some row ->
  start_of row <= seconds <= end_of row ->
  (forall j r, i = S j -> table !! j = Some r -> end_of r < seconds) ->
  resolved (UpdateLights int_bits CHANNELS MAXPERIODS lightMatrix lightValue seconds)
    channel = Some (INTENSITY row).
Proof.
  intros Hb Hvalid Hlen Ht Hk Hi Hr Hin Hprev.
  apply (resolved_in_period int_bits CHANNELS MAXPERIODS Hb lightMatrix Hvalid lightValue
           Hlen channel table k i row seconds Ht Hk Hi Hr Hprev); [intros _|]; lia.
Qed.

Lemma period_holds_intensity_witness :
  resolved (UpdateLights 16 Sketch.CHANNELS Sketch.MAXPERIODS Sketch.lightMatrix
              Sketch.lightValue 60000) 1%nat = Some 255.
Proof.
  apply (period_holds_intensity 16 Sketch.CHANNELS Sketch.MAXPERIODS Sketch.lightMatrix
           Sketch.lightValue 1%nat
           [ mkRow 0 0 7 45 0; mkRow 8 0 11 0 255; mkRow 11 10 13 0 0;
             mkRow 13 10 20 30 255; mkRow 20 45 24 0 0 ]
           4%nat 3%nat (mkRow 13 10 20 30 255) 60000);
    [lia | reflexivity | reflexivity | reflexivity | reflexivity | lia | reflexivity
     | clock | ].
  intros j r Hj. inversion Hj. subst j. simpl. intros Hr. inversion Hr. clock.
Defined.

(** X9.  On a valid schedule, in a gap whose duration fits [int], the
    resolved intensity depends on the direction of the fade.  Rising, it is
    counted from 0 and not from the intensity before the gap: it is between
    0 and the difference of the two intensities, and within one of
    [elapsed * difference / duration].  Falling, it is between the intensity
    after the gap and the one before.  Between equal intensities it is that
    intensity. *)
Theorem fade_value_bounds int_bits CHANNELS MAXPERIODS lightMatrix lightValue
    channel table k i row next seconds :
  16 <= int_bits ->
  valid_matrix CHANNELS MAXPERIODS lightMatrix = true ->
  length lightValue = CHANNELS ->
  lightMatrix !! channel = Some table -> terminal table = Some k ->
  (i < k)%nat -> table !! i = Some row -> table !! S i = Some next ->
  start_of next - end_of row < 2 ^ (int_bits - 1) ->
  end_of row < seconds < start_of next ->
  exists v,
    resolved (UpdateLights int_bits CHANNELS MAXPERIODS lightMatrix lightValue seconds)
      channel = Some v /\
    (INTENSITY row < INTENSITY next ->
     0 <= v <= INTENSITY next - INTENSITY row /\
     (seconds - end_of row) * (INTENSITY next - INTENSITY row)
       / (start_of next - end_of row) - 1 <= v
     <= (seconds - end_of row) * (INTENSITY next - INTENSITY row)
          / (start_of next - end_of row) + 1) /\
    (INTENSITY next < INTENSITY row -> INTENSITY next <= v <= INTENSITY row) /\
    (INTENSITY next = INTENSITY row -> v = INTENSITY row).
Proof.
  intros Hb Hvalid Hlen Ht Hk Hi Hr Hn Hfit Hgap.
  destruct (channel_context CHANNELS MAXPERIODS lightMatrix Hvalid channel table k Ht Hk)
    as [Hc [Hlent Hl]].
  pose proof (live_rows _ _ Hl i row ltac:(lia) Hr) as Hrf.
  pose proof (live_rows _ _ Hl (S i) next ltac:(lia) Hn) as Hnf.
  pose proof (rf_intensity _ Hrf) as Hpre.
  pose proof (rf_intensity _ Hnf) as Hpost.
  pose proof (row_facts_end_nonneg _ Hrf) as He.
  pose proof (row_facts_start_day _ Hnf) as Hs.
  eexists. split.
  { apply (resolved_in_gap int_bits CHANNELS MAXPERIODS Hb lightMatrix Hvalid
             lightValue Hlen channel table k i row next seconds Ht Hk Hi Hr Hn); lia. }
  split; [|split]; intros Hdir.
  - rewrite (transition_up int_bits Hb (INTENSITY row) (INTENSITY next) (end_of row)
               (start_of next) Hpre Hpost He ltac:(lia) Hfit seconds Hgap Hdir).
    split.
    + apply (step_range int_bits Hb (end_of row) (start_of next) He ltac:(lia)
               seconds _ Hgap). lia.
    + apply fade_step_near; [lia | change (2 ^ 24) with 16777216; lia | lia].
  - rewrite (transition_down int_bits Hb (INTENSITY row) (INTENSITY next) (end_of row)
               (start_of next) Hpre Hpost He ltac:(lia) Hfit seconds Hgap Hdir).
    pose proof (step_range int_bits Hb (end_of row) (start_of next) He ltac:(lia)
                  seconds (INTENSITY row - INTENSITY next) Hgap ltac:(lia)).
    lia.
  - apply (transition_level int_bits Hb (INTENSITY row) (INTENSITY next) (end_of row)
             (start_of next) Hpre Hpost He ltac:(lia) Hfit seconds Hgap Hdir).
Qed.

Lemma fade_value_bounds_witness :
  exists v,
    resolved (UpdateLights 16 Sketch.CHANNELS Sketch.MAXPERIODS
                (Tables.with_channel0 Tables.brighten) Sketch.lightValue 29700) O
    = Some v /\
    (100 < 200 ->
     0 <= v <= 200 - 100 /\
     (29700 - 28800) * (200 - 100) / (30600 - 28800) - 1 <= v
     <= (29700 - 28800) * (200 - 100) / (30600 - 28800) + 1) /\
    (200 < 100 -> 200 <= v <= 100) /\
    (200 = 100 -> v = 100).
Proof.
  apply (fade_value_bounds 16 Sketch.CHANNELS Sketch.MAXPERIODS
           (Tables.with_channel0 Tables.brighten) Sketch.lightValue O Tables.brighten
           1%nat O (mkRow 0 0 8 0 100) (mkRow 8 30 24 0 200) 29700);
    [lia | reflexivity | reflexivity | reflexivity | reflexivity | lia | reflexivity
     | reflexivity | vm_compute; reflexivity | clock].
Defined.

(** X10.  On a valid schedule whose gaps each fit [int] (every valid
    schedule, when [int] has 18 bits or more), for every time up to 24:00
    [UpdateLights] completes and every entry of [lightValue] is then a duty
    cycle between 0 and 255. *)
Theorem intensities_are_duty_cycles int_bits CHANNELS MAXPERIODS lightMatrix lightValue
    seconds :
  16 <= int_bits ->
  valid_matrix CHANNELS MAXPERIODS lightMatrix = true ->
  length lightValue = CHANNELS ->
  18 <= int_bits \/ gaps_fit int_bits lightMatrix ->
  seconds <= 86400 ->
  exists lightValue',
    result (UpdateLights int_bits CHANNELS MAXPERIODS lightMatrix lightValue seconds)
    = Done lightValue' /\
    length lightValue' = CHANNELS /\
    Forall (fun v => 0 <= v <= 255) lightValue'.
Proof.
  intros Hb Hvalid Hlen Hfit Hday.
  assert (Hgaps : gaps_fit int_bits lightMatrix).
  { destruct Hfit as [Hwide|Hfit]; [|exact Hfit].
    apply (gaps_fit_wide int_bits CHANNELS MAXPERIODS lightMatrix Hwide Hvalid). }
  destruct (UpdateLights_completes int_bits CHANNELS MAXPERIODS Hb lightMatrix Hvalid
              lightValue Hlen seconds Hday) as [lv' [Hres Hlen']].
  exists lv'. split; [exact Hres|]. split; [exact Hlen'|].
  apply Forall_lookup. intros c x Hx.
  pose proof (lookup_lt_Some _ _ _ Hx) as Hc.
  destruct (intensity_in_range_when_gaps_fit int_bits CHANNELS MAXPERIODS lightMatrix
              lightValue seconds c Hb Hvalid Hlen Hgaps Hday ltac:(lia))
    as [v [Hv Hrange]].
  unfold resolved in Hv. rewrite Hres in Hv. rewrite Hx in Hv. inversion Hv. lia.
Qed.

Lemma intensities_are_duty_cycles_witness :
  exists lightValue',
    result (UpdateLights 32 Sketch.CHANNELS Sketch.MAXPERIODS
              (Tables.with_channel0 Tables.slow_sunrise) Sketch.lightValue 39600)
    = Done lightValue' /\
    length lightValue' = Sketch.CHANNELS /\
    Forall (fun v => 0 <= v <= 255) lightValue'.
Proof.
  apply (intensities_are_duty_cycles 32 Sketch.CHANNELS Sketch.MAXPERIODS
           (Tables.with_channel0 Tables.slow_sunrise) Sketch.lightValue 39600);
    [lia | reflexivity | reflexivity | left; lia | lia].
Defined.



(** ** The arithmetic of a fade, on every board *)

Lemma div_opp_r x y : div x (SFopp y) = SFopp (div x y).
Proof.
  unfold div. destruct x as [sx|sx| |sx mx ex], y as [sy|sy| |sy my ey];
    simpl; try reflexivity; try (destruct sx, sy; reflexivity).
  destruct (SFdiv_core_binary prec emax (Z.pos mx) ex (Z.pos my) ey) as [[mz ez] lz].
  rewrite <- binary_round_aux_opp. f_equal. destruct sx, sy; reflexivity.
Qed.

Lemma is_finite_opp x : is_finite (SFopp x) = is_finite x.
Proof. destruct x; reflexivity. Qed.

(** The quotient and the product of a fade are numbers whenever the divisor
    is not zero. *)
Lemma fade_finite e d g :
  0 < e < 2 ^ 24 -> 0 <= d < 2 ^ 24 -> g <> 0 -> - 2 ^ 24 < g < 2 ^ 24 ->
  is_finite (div (of_Z d) (of_Z g)) = true /\
  is_finite (mul (of_Z e) (div (of_Z d) (of_Z g))) = true.
Proof.
  intros He Hd Hg0 Hg.
  assert (Hpos : forall g', 0 < g' < 2 ^ 24 ->
            is_finite (div (of_Z d) (of_Z g')) = true /\
            is_finite (mul (of_Z e) (div (of_Z d) (of_Z g'))) = true).
  { intros g' Hg'. destruct (Z.eq_dec d 0) as [->|Hd0].
    - destruct (of_Z_spec g' Hg') as [Mg [Eg [-> _]]].
      destruct (of_Z_spec e He) as [Me [Ee [-> _]]].
      split; reflexivity.
    - destruct (fade_floats e d g') as [Mq [Eq [Mx [Ex [Hq [_ [Hx _]]]]]]];
        try lia.
      rewrite Hx, Hq. split; reflexivity. }
  destruct (Z_lt_le_dec 0 g) as [Hgp|Hgn]; [apply Hpos; lia|].
  replace g with (- (- g)) by lia. rewrite of_Z_opp by lia.
  rewrite div_opp_r, mul_opp_r, !is_finite_opp. apply Hpos. lia.
Qed.

(** A duration of a whole number of minutes, up to a day, is not zero once
    cut to [int]. *)
Lemma tDur_of_minutes int_bits pEnd pNextStart n :
  16 <= int_bits -> pNextStart - pEnd = 60 * n -> 0 < pNextStart - pEnd <= 86400 ->
  tDur int_bits pEnd pNextStart <> 0 /\
  - 2 ^ 24 < tDur int_bits pEnd pNextStart < 2 ^ 24.
Proof.
  intros Hb Hn Hg. unfold tDur. rewrite wrap_long by lia.
  set (g := pNextStart - pEnd) in *.
  destruct (Z_lt_le_dec int_bits 18) as [Hsmall|Hwide].
  - assert (Hcase : int_bits = 16 \/ int_bits = 17) by lia.
    destruct Hcase as [-> | ->]; unfold wrap.
    + change (2 ^ 16) with 65536. change (2 ^ (16 - 1)) with 32768.
      change (2 ^ 24) with 16777216.
      pose proof (Z.mod_pos_bound (g + 32768) 65536 ltac:(lia)) as Hm.
      pose proof (Z.div_mod (g + 32768) 65536 ltac:(lia)) as Hdm.
      split; [|lia]. intros H0.
      assert (Hq : g = 65536 * ((g + 32768) / 65536)) by lia.
      set (q := (g + 32768) / 65536) in *.
      assert (q = 1) by lia. lia.
    + change (2 ^ 17) with 131072. change (2 ^ (17 - 1)) with 65536.
      change (2 ^ 24) with 16777216.
      pose proof (Z.mod_pos_bound (g + 65536) 131072 ltac:(lia)) as Hm.
      pose proof (Z.div_mod (g + 65536) 131072 ltac:(lia)) as Hdm.
      split; [|lia]. intros H0.
      assert (Hq : g = 131072 * ((g + 65536) / 131072)) by lia.
      set (q := (g + 65536) / 131072) in *.
      assert (q <= 0) by lia. lia.
  - assert (Hp : 2 ^ 17 <= 2 ^ (int_bits - 1)) by (apply Z.pow_le_mono_r; lia).
    change (2 ^ 17) with 131072 in Hp. change (2 ^ 24) with 16777216.
    rewrite wrap_in_range; [lia | lia | unfold in_range; lia].
Qed.

(** X12.  On a valid schedule, on every board, the duration [tDur] that a
    fade divides by is never zero, also when it does not fit [int] and has
    wrapped; the quotient [(float)intensityDiff / tDur] and its product by
    the elapsed time, which is the float that [transition] casts to [int],
    are numbers: no infinity and no NaN arises. *)
Theorem fade_arithmetic_is_defined int_bits CHANNELS MAXPERIODS lightMatrix
    channel table k i row next seconds :
  16 <= int_bits ->
  valid_matrix CHANNELS MAXPERIODS lightMatrix = true ->
  lightMatrix !! channel = Some table -> terminal table = Some k ->
  (i < k)%nat -> table !! i = Some row -> table !! S i = Some next ->
  end_of row < seconds < start_of next ->
  let delta := Z.abs (INTENSITY next - INTENSITY row) in
  let product := faded int_bits delta (end_of row) (start_of next) seconds in
  tDur int_bits (end_of row) (start_of next) <> 0 /\
  is_finite (slope int_bits delta (end_of row) (start_of next)) = true /\
  is_finite product = true /\
  transition int_bits (INTENSITY row) (INTENSITY next) (end_of row) (start_of next)
    seconds
  = if INTENSITY row <? INTENSITY next then to_int int_bits product
    else wrap int_bits (INTENSITY row - to_int int_bits product).
Proof.
  intros Hb Hvalid Ht Hk Hi Hr Hn Hgap delta product.
  destruct (channel_context CHANNELS MAXPERIODS lightMatrix Hvalid channel table k Ht Hk)
    as [Hc [Hlent Hl]].
  pose proof (live_rows _ _ Hl i row ltac:(lia) Hr) as Hrf.
  pose proof (live_rows _ _ Hl (S i) next ltac:(lia) Hn) as Hnf.
  pose proof (rf_intensity _ Hrf) as Hpre.
  pose proof (rf_intensity _ Hnf) as Hpost.
  pose proof (row_facts_end_nonneg _ Hrf) as He.
  pose proof (row_facts_start_day _ Hnf) as Hs.
  destruct (tDur_of_minutes int_bits (end_of row) (start_of next)
              (START_H next * 60 + START_M next - (END_H row * 60 + END_M row)) Hb)
    as [Hnz Hsmall]; [unfold start_of, end_of; lia | lia |].
  assert (Hel : wrap long_bits (seconds - end_of row) = seconds - end_of row)
    by (apply wrap_long; lia).
  destruct (fade_finite (seconds - end_of row) delta
              (tDur int_bits (end_of row) (start_of next)))
    as [Hq Hx]; [change (2 ^ 24) with 16777216; lia
                | unfold delta; change (2 ^ 24) with 16777216; lia
                | exact Hnz | exact Hsmall |].
  split; [exact Hnz|]. split; [exact Hq|].
  split; [unfold product, faded, slope; rewrite Hel; exact Hx|].
  unfold transition, product, faded, slope, tDur, delta.
  rewrite (wrap_int int_bits (INTENSITY next - INTENSITY row)) by lia.
  rewrite Z.gtb_ltb.
  destruct (Z.ltb_spec 0 (INTENSITY next - INTENSITY row)) as [Hup|Hdown].
  - rewrite (proj2 (Z.ltb_lt (INTENSITY row) (INTENSITY next))) by lia.
    rewrite Z.abs_eq by lia. reflexivity.
  - rewrite (proj2 (Z.ltb_ge (INTENSITY row) (INTENSITY next))) by lia.
    rewrite (wrap_int int_bits (0 - (INTENSITY next - INTENSITY row))) by lia.
    rewrite Z.abs_neq by lia.
    replace (0 - (INTENSITY next - INTENSITY row))
      with (- (INTENSITY next - INTENSITY row)) by lia.
    reflexivity.
Qed.

Lemma fade_arithmetic_is_defined_witness :
  let delta := Z.abs (255 - 0) in
  let product := faded 16 delta 3600 82800 39600 in
  tDur 16 3600 82800 <> 0 /\
  is_finite (slope 16 delta 3600 82800) = true /\
  is_finite product = true /\
  transition 16 0 255 3600 82800 39600
  = if 0 <? 255 then to_int 16 product else wrap 16 (0 - to_int 16 product).
Proof.
  apply (fade_arithmetic_is_defined 16 Sketch.CHANNELS Sketch.MAXPERIODS
           (Tables.with_channel0 Tables.slow_sunrise) O Tables.slow_sunrise 1%nat O
           (mkRow 0 0 1 0 0) (mkRow 23 0 24 0 255) 39600);
    [lia | reflexivity | reflexivity | reflexivity | lia | reflexivity | reflexivity
     | clock].
Defined.

(** ** The main loop *)

Lemma shipped_gaps_fit int_bits : 16 <= int_bits -> gaps_fit int_bits Sketch.lightMatrix.
Proof.
  intros Hb channel table k i row next Ht Hk Hi Hr Hn.
  assert (Hp : 2 ^ 15 <= 2 ^ (int_bits - 1)) by (apply Z.pow_le_mono_r; lia).
  change (2 ^ 15) with 32768 in Hp.
  destruct channel as [|[|channel]]; [| |discriminate Ht];
    inversion Ht; subst table; inversion Hk; subst k;
    (destruct i as [|[|[|[|i]]]]; [| | | |lia]);
    inversion Hr; subst row; inversion Hn; subst next;
    unfold start_of, end_of; simpl; lia.
Qed.

Section Loop.

Variable int_bits : Z.
Hypothesis int_bits_ge : 16 <= int_bits.
Variable lightMatrix : list (list Row).
Variable now : Main.DateTime.

Local Abbreviation time :=
  (Main.hour now * 3600 + Main.minute now * 60 + Main.second now).

(** What [loop] does once [UpdateLights] has completed. *)
Lemma loop_done globals value0 value1 :
  - 32768 <= Main.hour now < 32768 -> - 546 <= Main.minute now <= 546 ->
  - 32768 <= Main.second now < 32768 ->
  result (UpdateLights int_bits Sketch.CHANNELS Sketch.MAXPERIODS lightMatrix
            (Main.lightValue globals) time) = Done [value0; value1] ->
  result (Main.loop int_bits lightMatrix now globals)
  = Done (Main.mkGlobals (Main.hour now) (Main.minute now) (Main.second now)
            [value0; value1],
          [(Main.L1Pin, value0); (Main.L2Pin, value1)]).
Proof.
  intros Hh Hm Hs Hres. unfold Main.loop. cbv zeta.
  rewrite (GetSeconds_exact int_bits _ _ _ int_bits_ge Hh Hm Hs).
  rewrite (result_bind _ _ _ Hres). reflexivity.
Qed.


(** On a valid schedule whose gaps fit, for a reading of the clock. *)
Lemma loop_run globals :
  valid_matrix Sketch.CHANNELS Sketch.MAXPERIODS lightMatrix = true ->
  gaps_fit int_bits lightMatrix ->
  length (Main.lightValue globals) = Sketch.CHANNELS ->
  0 <= Main.hour now < 24 -> 0 <= Main.minute now < 60 -> 0 <= Main.second now < 60 ->
  exists value0 value1,
    result (Main.loop int_bits lightMatrix now globals)
    = Done (Main.mkGlobals (Main.hour now) (Main.minute now) (Main.second now)
              [value0; value1],
            [(Main.L1Pin, value0); (Main.L2Pin, value1)]) /\
    0 <= value0 <= 255 /\ 0 <= value1 <= 255 /\
    resolved (UpdateLights int_bits Sketch.CHANNELS Sketch.MAXPERIODS lightMatrix
                (Main.lightValue globals) time) O = Some value0 /\
    resolved (UpdateLights int_bits Sketch.CHANNELS Sketch.MAXPERIODS lightMatrix
                (Main.lightValue globals) time) 1%nat = Some value1.
Proof.
  intros Hvalid Hfit Hlen Hh Hm Hs.
  destruct (UpdateLights_completes int_bits Sketch.CHANNELS Sketch.MAXPERIODS
              int_bits_ge lightMatrix Hvalid (Main.lightValue globals) Hlen time
              ltac:(lia)) as [lv' [Hres Hlen']].
  destruct (intensity_in_range_when_gaps_fit int_bits Sketch.CHANNELS Sketch.MAXPERIODS
              lightMatrix (Main.lightValue globals) time O int_bits_ge Hvalid Hlen Hfit
              ltac:(lia) ltac:(unfold Sketch.CHANNELS; lia)) as [v0 [Hv0 Hr0]].
  destruct (intensity_in_range_when_gaps_fit int_bits Sketch.CHANNELS Sketch.MAXPERIODS
              lightMatrix (Main.lightValue globals) time 1%nat int_bits_ge Hvalid Hlen
              Hfit ltac:(lia) ltac:(unfold Sketch.CHANNELS; lia)) as [v1 [Hv1 Hr1]].
  exists v0, v1.
  assert (Hlv : lv' = [v0; v1]).
  { unfold resolved in Hv0, Hv1. rewrite Hres in Hv0, Hv1.
    destruct lv' as [|a [|b [|c rest]]]; try discriminate Hlen'.
    simpl in Hv0, Hv1. congruence. }
  subst lv'. split; [apply loop_done; [lia | lia | lia | exact Hres]|].
  split; [exact Hr0|]. split; [exact Hr1|]. split; [exact Hv0 | exact Hv1].
Qed.

End Loop.


(** X13.  On a valid schedule for the two channels of the sketch whose gaps
    fit [int], for every clock reading from 00:00:00 to 23:59:59, [loop]
    completes without an out-of-bounds read, keeps the reading in [Hours],
    [Minutes] and [Seconds], and makes exactly two calls of [analogWrite]:
    pin 9 with the intensity resolved for channel 0 and then pin 10 with
    that of channel 1, both between 0 and 255. *)
Theorem loop_writes_duty_cycles int_bits lightMatrix now globals :
  16 <= int_bits ->
  valid_matrix Sketch.CHANNELS Sketch.MAXPERIODS lightMatrix = true ->
  18 <= int_bits \/ gaps_fit int_bits lightMatrix ->
  length (Main.lightValue globals) = Sketch.CHANNELS ->
  0 <= Main.hour now < 24 -> 0 <= Main.minute now < 60 -> 0 <= Main.second now < 60 ->
  let seconds := Main.hour now * 3600 + Main.minute now * 60 + Main.second now in
  exists value0 value1,
    result (Main.loop int_bits lightMatrix now globals)
    = Done (Main.mkGlobals (Main.hour now) (Main.minute now) (Main.second now)
              [value0; value1],
            [(9, value0); (10, value1)]) /\
    0 <= value0 <= 255 /\ 0 <= value1 <= 255 /\
    resolved (UpdateLights int_bits Sketch.CHANNELS Sketch.MAXPERIODS lightMatrix
                (Main.lightValue globals) seconds) O = Some value0 /\
    resolved (UpdateLights int_bits Sketch.CHANNELS Sketch.MAXPERIODS lightMatrix
                (Main.lightValue globals) seconds) 1%nat = Some value1.
Proof.
  intros Hb Hvalid Hfit Hlen Hh Hm Hs seconds.
  apply (loop_run int_bits Hb lightMatrix now globals Hvalid); try assumption.
  destruct Hfit as [Hwide|Hfit]; [|exact Hfit].
  apply (gaps_fit_wide int_bits Sketch.CHANNELS Sketch.MAXPERIODS lightMatrix Hwide
           Hvalid).
Qed.

Lemma loop_writes_duty_cycles_witness :
  let seconds := 12 * 3600 + 0 * 60 + 0 in
  exists value0 value1,
    result (Main.loop 32 (Tables.with_channel0 Tables.slow_sunrise)
              (Main.mkDateTime 12 0 0) (Main.mkGlobals 0 0 0 [0; 0]))
    = Done (Main.mkGlobals 12 0 0 [value0; value1], [(9, value0); (10, value1)]) /\
    0 <= value0 <= 255 /\ 0 <= value1 <= 255 /\
    resolved (UpdateLights 32 Sketch.CHANNELS Sketch.MAXPERIODS
                (Tables.with_channel0 Tables.slow_sunrise) [0; 0] seconds) O
    = Some value0 /\
    resolved (UpdateLights 32 Sketch.CHANNELS Sketch.MAXPERIODS
                (Tables.with_channel0 Tables.slow_sunrise) [0; 0] seconds) 1%nat
    = Some value1.
Proof.
  apply (loop_writes_duty_cycles 32 (Tables.with_channel0 Tables.slow_sunrise)
           (Main.mkDateTime 12 0 0) (Main.mkGlobals 0 0 0 [0; 0]));
    [lia | reflexivity | left; lia | reflexivity | simpl; lia | simpl; lia
     | simpl; lia].
Defined.





(** X16.  The sketch as shipped, on every board: for every clock reading
    from 00:00:00 to 23:59:59 [loop] completes without an out-of-bounds read
    and writes to pins 9 and 10 two duty cycles between 0 and 255. *)
Theorem shipped_loop_is_safe int_bits now globals :
  16 <= int_bits ->
  length (Main.lightValue globals) = Sketch.CHANNELS ->
  0 <= Main.hour now < 24 -> 0 <= Main.minute now < 60 -> 0 <= Main.second now < 60 ->
  exists value0 value1,
    result (Main.loop int_bits Sketch.lightMatrix now globals)
    = Done (Main.mkGlobals (Main.hour now) (Main.minute now) (Main.second now)
              [value0; value1],
            [(9, value0); (10, value1)]) /\
    0 <= value0 <= 255 /\ 0 <= value1 <= 255.
Proof.
  intros Hb Hlen Hh Hm Hs.
  destruct (loop_run int_bits Hb Sketch.lightMatrix now globals eq_refl
              (shipped_gaps_fit int_bits Hb) Hlen Hh Hm Hs)
    as [v0 [v1 [Hres [H0 [H1 _]]]]].
  exists v0, v1. split; [exact Hres|]. split; [exact H0 | exact H1].
Qed.

Lemma shipped_loop_is_safe_witness :
  exists value0 value1,
    result (Main.loop 16 Sketch.lightMatrix (Main.mkDateTime 8 15 0)
              (Main.mkGlobals 0 0 0 [0; 0]))
    = Done (Main.mkGlobals 8 15 0 [value0; value1], [(9, value0); (10, value1)]) /\
    0 <= value0 <= 255 /\ 0 <= value1 <= 255.
Proof.
  apply (shipped_loop_is_safe 16 (Main.mkDateTime 8 15 0) (Main.mkGlobals 0 0 0 [0; 0]));
    [lia | reflexivity | simpl; lia | simpl; lia | simpl; lia].
Defined.
(** ** The rows after the terminal one *)

(** A run of the inner loop depends on the rows it reads only. *)
Lemma periods_loop_frame int_bits m1 m2 channel table1 table2 seconds fuel :
  forall period,
  m1 !! channel = Some table1 -> m2 !! channel = Some table2 ->
  (forall p, (channel, p) ∈ reads (periods_loop int_bits m1 channel seconds fuel period) ->
     table2 !! p = table1 !! p) ->
  periods_loop int_bits m2 channel seconds fuel period
  = periods_loop int_bits m1 channel seconds fuel period.
Proof.
  induction fuel as [|fuel IH]; intros period H1 H2 Hsame; [reflexivity|].
  rewrite periods_loop_unfold in Hsame. rewrite !periods_loop_unfold.
  unfold read in Hsame |- *. rewrite H1 in Hsame. rewrite H1, H2.
  assert (Hp : table2 !! period = table1 !! period).
  { apply Hsame. unfold bind, reads. destruct (table1 !! period); simpl; left. }
  rewrite Hp. destruct (table1 !! period) as [row|]; [|reflexivity].
  unfold bind at 1 3. unfold bind at 1 in Hsame.
  destruct (GetSeconds int_bits (END_H row) (END_M row) 0 >=? seconds); [reflexivity|].
  assert (Hn : table2 !! (period + 1)%nat = table1 !! (period + 1)%nat).
  { apply Hsame. unfold bind, reads. simpl fst. right.
    destruct (table1 !! (period + 1)%nat); simpl; left. }
  rewrite Hn. destruct (table1 !! (period + 1)%nat) as [next|]; [|reflexivity].
  unfold bind. unfold bind in Hsame.
  destruct (GetSeconds int_bits (START_H next) (START_M next) 0 >? seconds);
    [reflexivity|].
  rewrite (IH (S period) H1 H2); [reflexivity|].
  intros p Hin. apply Hsame. unfold reads. simpl fst. right. right. exact Hin.
Qed.

Lemma channels_loop_ext int_bits MAXPERIODS m1 m2 seconds order :
  forall lightValue,
  (forall c, c ∈ order ->
     periods_loop int_bits m2 c seconds MAXPERIODS O
     = periods_loop int_bits m1 c seconds MAXPERIODS O) ->
  channels_loop int_bits MAXPERIODS m2 seconds order lightValue
  = channels_loop int_bits MAXPERIODS m1 seconds order lightValue.
Proof.
  induction order as [|c0 rest IH]; intros lightValue Hall; [reflexivity|].
  cbn [channels_loop]. rewrite (Hall c0 ltac:(left)).
  destruct (periods_loop int_bits m1 c0 seconds MAXPERIODS O) as [log [v|]];
    [|reflexivity].
  unfold bind. rewrite IH; [reflexivity|].
  intros c Hc. apply Hall. right. exact Hc.
Qed.

Lemma terminal_app live fillers k :
  terminal live = Some k ->
  terminal (live ++ fillers) = Some k /\ (k < length live)%nat.
Proof.
  revert k. induction live as [|r rest IH]; intros k Hk; [discriminate|].
  simpl in *. destruct (end_of r =? 86400).
  - inversion Hk. split; [reflexivity | lia].
  - destruct (terminal rest) as [k'|]; [|discriminate].
    destruct (IH k' eq_refl) as [Ha Hlt]. rewrite Ha.
    simpl in *. inversion Hk. split; [reflexivity | lia].
Qed.

(** X17.  On a valid schedule, for every time up to 24:00, the rows after
    the terminal row of a channel are never looked at: replacing them by any
    other rows changes neither the rows [UpdateLights] reads nor what it
    leaves in [lightValue]. *)
Theorem filler_rows_are_ignored int_bits CHANNELS MAXPERIODS lightMatrix lightValue
    channel live k fillers fillers' seconds :
  16 <= int_bits ->
  valid_matrix CHANNELS MAXPERIODS lightMatrix = true ->
  lightMatrix !! channel = Some (live ++ fillers) ->
  terminal live = Some k ->
  seconds <= 86400 ->
  UpdateLights int_bits CHANNELS MAXPERIODS (<[channel := live ++ fillers']> lightMatrix)
    lightValue seconds
  = UpdateLights int_bits CHANNELS MAXPERIODS lightMatrix lightValue seconds.
Proof.
  intros Hb Hvalid Ht Hk Hday. unfold UpdateLights.
  apply channels_loop_ext. intros c Hc. apply list_elem_of_In, in_seq in Hc.
  destruct (channel_stops int_bits CHANNELS MAXPERIODS lightMatrix seconds Hb Hvalid
              c ltac:(lia) Hday) as [table [kc [Htc [Hlen [Hl [Hkc Hs]]]]]].
  destruct (decide (c = channel)) as [->|Hne].
  - rewrite Ht in Htc. inversion Htc. subst table.
    destruct (terminal_app live fillers k Hk) as [Hka Hlt].
    rewrite (live_terminal _ _ Hl) in Hka. inversion Hka. subst kc.
    apply (periods_loop_frame int_bits lightMatrix _ channel (live ++ fillers)
             (live ++ fillers') seconds MAXPERIODS O Ht).
    + apply list_lookup_insert_eq. apply (lookup_lt_Some _ _ _ Ht).
    + intros p Hin. destruct (stop_reads _ _ _ _ _ _ _ _ Hs Hin) as [_ Hp].
      rewrite !lookup_app_l by lia. reflexivity.
  - apply (periods_loop_frame int_bits lightMatrix _ c table table seconds MAXPERIODS O
             Htc).
    + rewrite list_lookup_insert_ne by congruence. exact Htc.
    + reflexivity.
Qed.

Lemma filler_rows_are_ignored_witness :
  UpdateLights 16 Sketch.CHANNELS Sketch.MAXPERIODS
    (<[O := [ mkRow 0 0 8 0 108; mkRow 8 25 24 0 0 ]
            ++ [ mkRow 99 99 99 99 999; mkRow 7 0 6 0 (-5); mkRow 0 0 24 0 255 ]]>
       (Tables.with_channel0 Tables.quick_dusk))
    Sketch.lightValue 29700
  = UpdateLights 16 Sketch.CHANNELS Sketch.MAXPERIODS
      (Tables.with_channel0 Tables.quick_dusk) Sketch.lightValue 29700.
Proof.
  apply (filler_rows_are_ignored 16 Sketch.CHANNELS Sketch.MAXPERIODS
           (Tables.with_channel0 Tables.quick_dusk) Sketch.lightValue O
           [ mkRow 0 0 8 0 108; mkRow 8 25 24 0 0 ] 1%nat
           [ Tables.filler; Tables.filler; Tables.filler ]
           [ mkRow 99 99 99 99 999; mkRow 7 0 6 0 (-5); mkRow 0 0 24 0 255 ] 29700);
    [lia | reflexivity | reflexivity | reflexivity | lia].
Defined.
